(** * ircstats: the URL tracker and the Stats entity graph

    A shallow embedding of package [stats] (stats.go, urls.go,
    counters.go) and the properties of its specification.

    - Go's [uint] is a 64-bit word: a [Z] kept in [0, 2^64) by [wrap].
    - Go strings are byte strings: [string], or [list ascii] where the
      regular expression walks over them.
    - Go maps are [gmap]s; what Go leaves open (the order of [range] over
      a map, the order [sort.Sort] gives to equal elements, the capacity
      [append] grows a slice to) is a field of the class [GoRuntime], and
      every theorem holds for each of its instances.
    - Pointers to Network, Channel and User objects are addresses into an
      append-only store, so that two maps can share one object. *)

From Stdlib Require Import ZArith Ascii String List Sorting.Sorted.
From stdpp Require Import base tactics option list numbers sorting countable strings gmap fin_maps.

Local Open Scope Z_scope.

(** ** Machine integers *)

(** [uint] is 64 bits wide on the 64-bit platforms. *)
Definition uint_bits : Z := 64.
Definition uint_modulus : Z := 2 ^ uint_bits.

(** [x] as a [uint]: arithmetic on [uint] wraps around. *)
Definition wrap (x : Z) : Z := x mod uint_modulus.

(** ** What the Go runtime and library leave open *)

Class GoRuntime := {
  (** [for k, v := range m]: the entries of [m], in an order of the
      runtime's choosing. *)
  map_range : ∀ {K} `{Countable K} {V}, gmap K V → list (K * V);
  map_range_perm : ∀ K `{Countable K} V (m : gmap K V),
    map_range m ≡ₚ map_to_list m;
  (** [sort.Sort]: sorts by [less]; not stable. *)
  sort_Sort : ∀ {A}, (A → A → bool) → list A → list A;
  sort_Sort_perm : ∀ A (less : A → A → bool) l, sort_Sort less l ≡ₚ l;
  sort_Sort_sorted : ∀ A (less : A → A → bool),
    (∀ x y, less x y = true → less y x = false) →
    (∀ x y z, less x y = false → less y z = false → less x z = false) →
    ∀ l, StronglySorted (λ x y, less y x = false) (sort_Sort less l);
  (** The capacity [append] gives a full slice of capacity [c] when one
      more element is appended. *)
  growslice : nat → nat;
  growslice_gt : ∀ c, (c < growslice c)%nat
}.

(** ** Regular expressions (package regexp) *)

Module Regexp.

(** The operators of regexp/syntax that [urlRegex] is built from.  A text
    is a string of bytes, and [OpAnyCharNotNL] takes one byte where the
    library takes one character, of one byte or more: under a star, the
    only place [urlRegex] has it, the two accept the same texts, as no
    byte of a longer character is a line feed. *)
Inductive regexp : Type :=
| OpEmptyMatch
| OpCharClass (ranges : list (ascii * ascii))
| OpAnyCharNotNL
| OpBeginText
| OpEndText
| OpConcat (r1 r2 : regexp)
| OpAlternate (r1 r2 : regexp)
| OpStar (r : regexp).

Definition OpLiteral (c : ascii) : regexp := OpCharClass [(c, c)].

Fixpoint OpString (s : list ascii) : regexp :=
  match s with
  | [] => OpEmptyMatch
  | c :: s' => OpConcat (OpLiteral c) (OpString s')
  end.

(** A capture group matches what its body matches. *)
Definition OpCapture (r : regexp) : regexp := r.
Definition OpPlus (r : regexp) : regexp := OpConcat r (OpStar r).
Definition OpQuest (r : regexp) : regexp := OpAlternate r OpEmptyMatch.

(** [r{n}] and [r{0,n}], the way regexp/syntax expands a counted
    repetition. *)
Fixpoint times (n : nat) (r : regexp) : regexp :=
  match n with
  | O => OpEmptyMatch
  | S n' => OpConcat r (times n' r)
  end.

Fixpoint upto (n : nat) (r : regexp) : regexp :=
  match n with
  | O => OpEmptyMatch
  | S n' => OpQuest (OpConcat r (upto n' r))
  end.

Definition OpRepeat (min max : nat) (r : regexp) : regexp :=
  OpConcat (times min r) (upto (max - min) r).

Definition in_range (c : ascii) (r : ascii * ascii) : bool :=
  (N_of_ascii (fst r) <=? N_of_ascii c)%N && (N_of_ascii c <=? N_of_ascii (snd r))%N.

Definition in_class (ranges : list (ascii * ascii)) (c : ascii) : bool :=
  existsb (in_range c) ranges.

Definition newline : ascii := ascii_of_nat 10.

Definition is_nil {A} (l : list A) : bool :=
  match l with [] => true | _ => false end.

(** Iterating [step] from [s]: every text left after zero or more
    rounds.  A round that consumes nothing is dropped, and a round
    consumes at most what is left, so [length s] rounds are enough. *)
Fixpoint star_ends (step : list ascii → list (list ascii)) (fuel : nat)
    (s : list ascii) : list (list ascii) :=
  s :: match fuel with
       | O => []
       | S fuel' =>
           flat_map (λ s', if (length s' <? length s)%nat
                           then star_ends step fuel' s' else [])
                    (step s)
       end.

(** [ends total r s]: the texts that can be left when [r] matches a
    prefix of [s], where [s] is a suffix of a text of length [total]
    (which is how [^] knows where the text begins). *)
Fixpoint ends (total : nat) (r : regexp) (s : list ascii) : list (list ascii) :=
  match r with
  | OpEmptyMatch => [s]
  | OpCharClass ranges =>
      match s with
      | c :: s' => if in_class ranges c then [s'] else []
      | [] => []
      end
  | OpAnyCharNotNL =>
      match s with
      | c :: s' => if Ascii.eqb c newline then [] else [s']
      | [] => []
      end
  | OpBeginText => if (length s =? total)%nat then [s] else []
  | OpEndText => if is_nil s then [s] else []
  | OpConcat r1 r2 => flat_map (ends total r2) (ends total r1 s)
  | OpAlternate r1 r2 => ends total r1 s ++ ends total r2 s
  | OpStar r1 => star_ends (ends total r1) (length s) s
  end.

(** The suffixes of [w], longest first, the empty one included: the
    places where a match can start. *)
Fixpoint tails (w : list ascii) : list (list ascii) :=
  w :: match w with
       | [] => []
       | _ :: w' => tails w'
       end.

(** What the operators mean: [matches total r s x] when [r] matches a
    prefix of [s] and leaves [x], at a place of a text of length [total]
    where [s] is what is left of the text. *)
Inductive matches (total : nat) : regexp → list ascii → list ascii → Prop :=
| matches_EmptyMatch s : matches total OpEmptyMatch s s
| matches_CharClass ranges c s :
    in_class ranges c = true → matches total (OpCharClass ranges) (c :: s) s
| matches_AnyCharNotNL c s :
    c ≠ newline → matches total OpAnyCharNotNL (c :: s) s
| matches_BeginText s : length s = total → matches total OpBeginText s s
| matches_EndText : matches total OpEndText [] []
| matches_Concat r1 r2 s s1 s2 :
    matches total r1 s s1 → matches total r2 s1 s2 →
    matches total (OpConcat r1 r2) s s2
| matches_Alternate_l r1 r2 s s1 :
    matches total r1 s s1 → matches total (OpAlternate r1 r2) s s1
| matches_Alternate_r r1 r2 s s1 :
    matches total r2 s s1 → matches total (OpAlternate r1 r2) s s1
| matches_Star_done r s : matches total (OpStar r) s s
| matches_Star_more r s s1 s2 :
    matches total r s s1 → matches total (OpStar r) s1 s2 →
    matches total (OpStar r) s s2.

(** [re.FindStringSubmatch(w) != nil]: [re] matches somewhere in [w]. *)
Definition FindStringSubmatch_found (re : regexp) (w : string) : bool :=
  let t := list_ascii_of_string w in
  existsb (λ s, negb (is_nil (ends (length t) re s))) (tails t).

End Regexp.

(** ** Messages *)

(** Modelled from the spec: the declaration of [MsgKind] is not among the
    sources; stats.go names [Kick] and [Action], the other kinds are the
    ones the specification lists. *)
Inductive MsgKind : Type :=
| Msg | Action | Notice | Join | Part | Quit | Kick | Mode | NickChange | Topic.

(** The fields [Stats.addMessage] fills in; [Date] is a [time.Time], kept
    as a number. *)
Record Message : Type := mkMessage {
  Message_ID : Z;
  Message_Date : Z;
  Message_UserID : Z;
  Message_ChannelID : Z;
  Message_Message : string;
  Message_Kind : MsgKind
}.

(** A message with the given text, the first of user 1, outside any
    channel. *)
Definition text_message (text : string) : Message := mkMessage 1 0 1 0 text Msg.

(** ** Strings (package strings) *)

Definition space : ascii := ascii_of_nat 32.

(** [strings.Split(s, " ")]: the pieces between single spaces; two
    spaces in a row give an empty piece, and the empty string gives one
    empty piece. *)
Fixpoint Split (s : string) : list string :=
  match s with
  | EmptyString => [EmptyString]
  | String c s' =>
      if Ascii.eqb c space then EmptyString :: Split s'
      else match Split s' with
           | w :: ws => String c w :: ws
           | [] => [String c EmptyString]
           end
  end.

(** ** Slices *)

(** How a Go function ends: it returns a value, it panics, or the
    process exits ([os.Exit]) before it returns. *)
Inductive result (A : Type) : Type :=
| Ok (a : A)
| Panic
| Exit (status : Z).
Arguments Ok {A} a.
Arguments Panic {A}.
Arguments Exit {A} status.

(** A slice: its elements ([len] of them) and the capacity of the array
    behind it, whose cells beyond [len] hold the zero value. *)
Record slice (A : Type) : Type := mkSlice {
  elems : list A;
  cap : nat
}.
Arguments mkSlice {A} elems cap.
Arguments elems {A} s.
Arguments cap {A} s.

(** [make([]T, 0)] *)
Definition make_slice {A} : slice A := mkSlice [] 0.

(** [append(s, x)] *)
Definition append `{GoRuntime} {A} (s : slice A) (x : A) : slice A :=
  mkSlice (elems s ++ [x])
          (if (length (elems s) <? cap s)%nat then cap s else growslice (cap s)).

(** [s[0:n]] for a slice of pointers: the bound is checked against the
    capacity, and the cells between the length and [n] are nil. *)
Definition slice_upto {A} (s : slice A) (n : Z) : result (list (option A)) :=
  if (n <? 0) || (Z.of_nat (cap s) <? n) then Panic
  else Ok (take (Z.to_nat n)
                (map Some (elems s) ++ replicate (cap s - length (elems s)) None)).

(** ** urls.go *)

Module Urls.
Import Regexp.

Definition chars (s : string) : list ascii := list_ascii_of_string s.

Definition alnum : regexp := OpCharClass [("a"%char, "z"%char); ("0"%char, "9"%char)].
Definition lower : regexp := OpCharClass [("a"%char, "z"%char)].
Definition digit : regexp := OpCharClass [("0"%char, "9"%char)].

(** The pattern of urls.go, line 12, is an alternation of two branches.
    The first: [^], the group [http|https], then [:\/\/]. *)
Definition scheme_re : regexp :=
  OpConcat OpBeginText
    (OpConcat (OpCapture (OpAlternate (OpString (chars "http"))
                                      (OpString (chars "https"))))
              (OpString (chars "://"))).

(** The second, piece by piece:
    - [[a-z0-9]+]
    - the starred group of [[\-\.]{1}] and [[a-z0-9]+]
    - [\.]
    - [[a-z]{2,6}]
    - the optional group of [:] and [[0-9]{1,5}]
    - the optional group of [\/] and any characters (dot, starred)
    - [$] *)
Definition domain_re : regexp :=
  OpConcat (OpPlus alnum)
 (OpConcat (OpStar (OpCapture
              (OpConcat (OpRepeat 1 1 (OpCharClass [("-"%char, "-"%char); ("."%char, "."%char)]))
                        (OpPlus alnum))))
 (OpConcat (OpLiteral "."%char)
 (OpConcat (OpRepeat 2 6 lower)
 (OpConcat (OpQuest (OpCapture (OpConcat (OpLiteral ":"%char) (OpRepeat 1 5 digit))))
 (OpConcat (OpQuest (OpCapture (OpConcat (OpLiteral "/"%char) (OpStar OpAnyCharNotNL))))
           OpEndText))))).

(** The alternation binds loosest: [^] belongs to the first branch only
    and [$] to the second only. *)
Definition urlRegex : regexp := OpAlternate scheme_re domain_re.

(** What the pattern is meant to accept, said without the expression.
    A label is a run of lower-case letters and digits; a host is labels
    joined by single hyphens or dots; a bare domain is a host, a dot, a
    top-level domain of two to six lower-case letters, then maybe a colon
    and a port of one to five digits, then maybe a slash and a path that
    stays on the line. *)
Definition lower_letter (c : ascii) : Prop :=
  (N_of_ascii "a" ≤ N_of_ascii c ≤ N_of_ascii "z")%N.
Definition digit_char (c : ascii) : Prop :=
  (N_of_ascii "0" ≤ N_of_ascii c ≤ N_of_ascii "9")%N.
Definition alnum_char (c : ascii) : Prop := lower_letter c ∨ digit_char c.
Definition hyphen_or_dot (c : ascii) : Prop := c = "-"%char ∨ c = "."%char.

Definition label (l : list ascii) : Prop := l ≠ [] ∧ Forall alnum_char l.

Definition joined (cl : ascii * list ascii) : list ascii := fst cl :: snd cl.

Definition tld (t : list ascii) : Prop :=
  (2 ≤ length t ≤ 6)%nat ∧ Forall lower_letter t.

Definition port (p : list ascii) : Prop :=
  p = [] ∨ ∃ ds, p = ":"%char :: ds ∧ (1 ≤ length ds ≤ 5)%nat ∧ Forall digit_char ds.

Definition path (q : list ascii) : Prop :=
  q = [] ∨ ∃ rest, q = "/"%char :: rest ∧ Forall (λ c, c ≠ newline) rest.

Definition bare_domain (d : list ascii) : Prop :=
  ∃ l0 more t p q,
    d = l0 ++ concat (map joined more) ++ "."%char :: t ++ p ++ q ∧
    label l0 ∧ Forall (λ cl, hyphen_or_dot (fst cl) ∧ label (snd cl)) more ∧
    tld t ∧ port p ∧ path q.

(** The words the tracker counts: those that start with a scheme, and
    those that end with a bare domain. *)
Definition url_word (w : string) : Prop :=
  String.prefix "http://" w = true ∨ String.prefix "https://" w = true ∨
  ∃ before d, chars w = before ++ d ∧ bare_domain d.

(** The words the specification counts: those that start with a scheme,
    and those that are a bare domain. *)
Definition spec_url_word (w : string) : Prop :=
  String.prefix "http://" w = true ∨ String.prefix "https://" w = true ∨
  bare_domain (chars w).

Record TopURL : Type := mkTopURL {
  URL : string;
  Count : Z
}.

(** [type urls map[string]uint] *)
Abbreviation urls := (gmap string Z).

Definition NewURLs : urls := ∅.

(** [u[w]++]: a missing key reads as zero. *)
Definition incr (w : string) (u : urls) : urls :=
  <[w := wrap (default 0 (u !! w) + 1)]> u.

Definition addMessage (m : Message) (u : urls) : urls :=
  let words := Split (Message_Message m) in
  fold_left (λ u w, if FindStringSubmatch_found urlRegex w then incr w u else u)
            words u.

(** The words of a message that the tracker counts, the tracker after a
    run of messages, and how often a word is among the counted ones. *)
Definition url_words (m : Message) : list string :=
  List.filter (FindStringSubmatch_found urlRegex) (Split (Message_Message m)).

Definition record_all (msgs : list Message) (u : urls) : urls :=
  fold_left (λ u m, addMessage m u) msgs u.

Definition recorded (msgs : list Message) : list string :=
  flat_map url_words msgs.

Definition occurrences (w : string) (ws : list string) : Z :=
  Z.of_nat (count_occ string_dec ws w).

(** [strings.Join(words, " ")] *)
Fixpoint Join (words : list string) : string :=
  match words with
  | [] => EmptyString
  | [w] => w
  | w :: ws => w +:+ String space (Join ws)
  end.

(** [byCount.Less] *)
Definition byCount_Less (a b : TopURL) : bool := Count a >? Count b.

Definition TopURLs `{GoRuntime} (u : urls) (n : Z) : result (list (option TopURL)) :=
  let list := make_slice in
  if (size u =? 0)%nat then Ok (map Some (elems list))
  else
    let list := fold_left (λ list '(url, count), append list (mkTopURL url count))
                          (map_range u) list in
    let list := mkSlice (sort_Sort byCount_Less (elems list)) (cap list) in
    slice_upto list n.

(** The entries of the tracker as [TopURLs] has them after the sort. *)
Definition entry (kv : string * Z) : TopURL := mkTopURL (fst kv) (snd kv).

Definition sorted_entries `{GoRuntime} (u : urls) : list TopURL :=
  sort_Sort byCount_Less (map entry (map_range u)).

End Urls.

(** ** An instance of the runtime, to run the definitions *)

Definition less_rel {A} (less : A → A → bool) : relation A :=
  λ x y, less y x = false.

Global Instance less_rel_dec {A} (less : A → A → bool) : RelDecision (less_rel less).
Proof. intros x y. unfold less_rel. apply _. Defined.

(** Below 256 elements the runtime doubles the capacity of a slice of
    pointers. *)
Definition double_cap (c : nat) : nat :=
  match c with O => 1%nat | _ => (2 * c)%nat end.

Lemma double_cap_gt c : (c < double_cap c)%nat.
Proof. destruct c; simpl; lia. Qed.

Lemma merge_sort_less_sorted {A} (less : A → A → bool) :
  (∀ x y, less x y = true → less y x = false) →
  (∀ x y z, less x y = false → less y z = false → less x z = false) →
  ∀ l, StronglySorted (less_rel less) (merge_sort (less_rel less) l).
Proof.
  intros Hasym Htrans l.
  apply StronglySorted_merge_sort.
  - intros x y z Hxy Hyz. unfold less_rel in *. eauto.
  - intros x y. unfold less_rel.
    destruct (less y x) eqn:E; [right; eauto | by left].
Qed.

Definition go_runtime : GoRuntime := {|
  map_range := λ K _ _ V m, map_to_list m;
  map_range_perm := λ K _ _ V m, reflexivity _;
  sort_Sort := λ A less l, merge_sort (less_rel less) l;
  sort_Sort_perm := λ A less l, merge_sort_Permutation _ l;
  sort_Sort_sorted := λ A less, merge_sort_less_sorted less;
  growslice := double_cap;
  growslice_gt := double_cap_gt
|}.

(** ** Library functions on strings *)

Class GoStrings := {
  (** [strings.ToLower] *)
  ToLower : string → string;
  ToLower_idem : ∀ s, ToLower (ToLower s) = ToLower s;
  (** [strings.Fields]: the words between runs of white space. *)
  Fields : string → list string;
  (** [irc.Nick] of ultimateq: the nick of a hostmask. *)
  Nick : string → string;
  (** The word tracker ([NewWordCounter]) is not among the sources: which
      words of a message it takes as tokens is left open. *)
  wordRegex_found : string → bool
}.

(** [strings.HasSuffix] *)
Definition HasSuffix (s suffix : string) : bool :=
  let n := String.length s in
  let k := String.length suffix in
  (k <=? n)%nat && String.eqb (substring (n - k) k s) suffix.

(** [strings.Replace(s, " ", "", -1)] *)
Fixpoint remove_spaces (s : string) : string :=
  match s with
  | EmptyString => EmptyString
  | String c s' =>
      if Ascii.eqb c space then remove_spaces s' else String c (remove_spaces s')
  end.

(** ** counters.go *)

Module Counters.
Section counters.
Context `{GoStrings}.

(** [WordsPerLine] and [LettersPerLine], two ratios in floating point,
    are left out. *)
Record BasicTextCounters : Type := mkBasic {
  Words : Z;
  Letters : Z;
  Lines : Z
}.

Definition countSuffixes (message suffix : string) : Z :=
  fold_left (λ count word, if HasSuffix word suffix then count + 1 else count)
            (Fields message) 0.

(** The loop of [AllCapsCount.addMessage]: [None] when it returns early
    at a lower-case letter, else whether a capital was seen.  A byte of
    a multi-byte character is above ['z'], as the character is. *)
Fixpoint allCaps_scan (s : string) (hasCapitalChar : bool) : option bool :=
  match s with
  | EmptyString => Some hasCapitalChar
  | String c s' =>
      let hasCapitalChar :=
        if (N_of_ascii "A" <? N_of_ascii c)%N && (N_of_ascii c <? N_of_ascii "Z")%N
        then true else hasCapitalChar in
      if (N_of_ascii "a" <? N_of_ascii c)%N && (N_of_ascii c <? N_of_ascii "z")%N
      then None
      else allCaps_scan s' hasCapitalChar
  end.

Definition AllCapsCount_addMessage (message : Message) (a : Z) : Z :=
  match allCaps_scan (Message_Message message) false with
  | Some true => wrap (a + 1)
  | _ => a
  end.

Definition QuestionsCount_addMessage (message : Message) (q : Z) : Z :=
  wrap (q + countSuffixes (Message_Message message) "?").

Definition ExclamationsCount_addMessage (message : Message) (e : Z) : Z :=
  wrap (e + countSuffixes (Message_Message message) "!").

Definition BasicTextCounters_addMessage (message : Message)
    (c : BasicTextCounters) : BasicTextCounters :=
  let words := Fields (Message_Message message) in
  let letters := remove_spaces (Message_Message message) in
  {| Letters := wrap (Letters c + Z.of_nat (String.length letters));
     Words := wrap (Words c + Z.of_nat (length words));
     Lines := wrap (Lines c + 1) |}.

(** Modelled from the spec: the aggregates are not among the sources; the
    specification gives each a bundle of scalar counters (word, letter and
    line tallies, all-caps detection, punctuation suffix counts), which
    are the counters of counters.go. *)
Record TextCounters : Type := mkCounters {
  Basic : BasicTextCounters;
  Questions : Z;
  Exclamations : Z;
  AllCaps : Z
}.

Definition NewTextCounters : TextCounters :=
  {| Basic := mkBasic 0 0 0; Questions := 0; Exclamations := 0; AllCaps := 0 |}.

Definition TextCounters_addMessage (message : Message) (c : TextCounters) : TextCounters :=
  {| Basic := BasicTextCounters_addMessage message (Basic c);
     Questions := QuestionsCount_addMessage message (Questions c);
     Exclamations := ExclamationsCount_addMessage message (Exclamations c);
     AllCaps := AllCapsCount_addMessage message (AllCaps c) |}.

End counters.
End Counters.

(** ** stats.go: the entity graph *)

Module StatsDB.
Import Counters.

(** A pointer: the place of an object in the store of its type. *)
Abbreviation addr := nat.

(** The fields that [Stats.addNetwork] fills in.  [stats], the pointer
    back to the one Stats, is left out.  [NewURLCounter] and
    [NewWordCounter] are not among the sources: the two trackers are maps
    from token to count, as the tracker of urls.go is. *)
Record Network : Type := mkNetwork {
  Network_Name : string;
  Network_ID : Z;
  Network_ChannelIDs : list Z;
  Network_UserIDs : list Z;
  Network_MessageIDs : list Z;
  Network_URLCounter : gmap string Z;
  Network_WordCounter : gmap string Z;
  Network_channels : gmap string addr;
  Network_users : gmap string addr
}.

(** Modelled from the spec: the declaration of Channel is not among the
    sources; the fields are those of the specification's data model. *)
Record Channel : Type := mkChannel {
  Channel_ID : Z;
  Channel_NetworkID : Z;
  Channel_Name : string;
  Channel_MessageIDs : list Z;
  Channel_counters : TextCounters;
  Channel_KickCount : Z;
  Channel_ActionCount : Z
}.

(** Modelled from the spec: the per-channel aggregate of a user (a [*User]
    held in [ChannelUsers] only) is its bundle of scalar counters. *)
Record ChannelUser : Type := mkChannelUser {
  ChannelUser_counters : TextCounters
}.

(** Modelled from the spec: the declaration of User is not among the
    sources; stats.go uses [ID] and [ChannelUsers], the other fields are
    those of the specification's data model.  A channel user is reached
    through [ChannelUsers] alone, so the map holds it by value. *)
Record User : Type := mkUser {
  User_ID : Z;
  User_NetworkID : Z;
  User_Nick : string;
  User_MessageIDs : list Z;
  User_counters : TextCounters;
  User_ChannelUsers : gmap string ChannelUser
}.

(** The Stats struct, with the objects its pointers lead to.  An object
    is never freed and never moves: a store only grows at its end.  The
    lock [mut] is left out: the methods are run one at a time. *)
Record Stats : Type := mkStats {
  Network_objs : list Network;
  Channel_objs : list Channel;
  User_objs : list User;

  Channels : gmap Z addr;
  Networks : gmap Z addr;
  Users : gmap Z addr;

  networkByName : gmap string addr;

  NetworkIDCount : Z;
  MessageIDCount : Z;
  ChannelIDCount : Z;
  UserIDCount : Z
}.

Definition set_Network_objs (v : list Network) (s : Stats) : Stats :=
  mkStats v (Channel_objs s) (User_objs s) (Channels s) (Networks s) (Users s)
          (networkByName s) (NetworkIDCount s) (MessageIDCount s)
          (ChannelIDCount s) (UserIDCount s).
Definition set_Channel_objs (v : list Channel) (s : Stats) : Stats :=
  mkStats (Network_objs s) v (User_objs s) (Channels s) (Networks s) (Users s)
          (networkByName s) (NetworkIDCount s) (MessageIDCount s)
          (ChannelIDCount s) (UserIDCount s).
Definition set_User_objs (v : list User) (s : Stats) : Stats :=
  mkStats (Network_objs s) (Channel_objs s) v (Channels s) (Networks s) (Users s)
          (networkByName s) (NetworkIDCount s) (MessageIDCount s)
          (ChannelIDCount s) (UserIDCount s).
Definition set_Channels (v : gmap Z addr) (s : Stats) : Stats :=
  mkStats (Network_objs s) (Channel_objs s) (User_objs s) v (Networks s) (Users s)
          (networkByName s) (NetworkIDCount s) (MessageIDCount s)
          (ChannelIDCount s) (UserIDCount s).
Definition set_Networks (v : gmap Z addr) (s : Stats) : Stats :=
  mkStats (Network_objs s) (Channel_objs s) (User_objs s) (Channels s) v (Users s)
          (networkByName s) (NetworkIDCount s) (MessageIDCount s)
          (ChannelIDCount s) (UserIDCount s).
Definition set_Users (v : gmap Z addr) (s : Stats) : Stats :=
  mkStats (Network_objs s) (Channel_objs s) (User_objs s) (Channels s) (Networks s) v
          (networkByName s) (NetworkIDCount s) (MessageIDCount s)
          (ChannelIDCount s) (UserIDCount s).
Definition set_networkByName (v : gmap string addr) (s : Stats) : Stats :=
  mkStats (Network_objs s) (Channel_objs s) (User_objs s) (Channels s) (Networks s) (Users s)
          v (NetworkIDCount s) (MessageIDCount s)
          (ChannelIDCount s) (UserIDCount s).
Definition set_NetworkIDCount (v : Z) (s : Stats) : Stats :=
  mkStats (Network_objs s) (Channel_objs s) (User_objs s) (Channels s) (Networks s) (Users s)
          (networkByName s) v (MessageIDCount s)
          (ChannelIDCount s) (UserIDCount s).
Definition set_MessageIDCount (v : Z) (s : Stats) : Stats :=
  mkStats (Network_objs s) (Channel_objs s) (User_objs s) (Channels s) (Networks s) (Users s)
          (networkByName s) (NetworkIDCount s) v
          (ChannelIDCount s) (UserIDCount s).
Definition set_ChannelIDCount (v : Z) (s : Stats) : Stats :=
  mkStats (Network_objs s) (Channel_objs s) (User_objs s) (Channels s) (Networks s) (Users s)
          (networkByName s) (NetworkIDCount s) (MessageIDCount s)
          v (UserIDCount s).
Definition set_UserIDCount (v : Z) (s : Stats) : Stats :=
  mkStats (Network_objs s) (Channel_objs s) (User_objs s) (Channels s) (Networks s) (Users s)
          (networkByName s) (NetworkIDCount s) (MessageIDCount s)
          (ChannelIDCount s) v.

(** A method of Stats: it reads and updates the state and gives a value. *)
Definition M (A : Type) : Type := Stats → A * Stats.

Definition ret {A} (a : A) : M A := λ s, (a, s).
Definition bind {A B} (m : M A) (k : A → M B) : M B :=
  λ s, let (a, s') := m s in k a s'.
Definition gets {A} (f : Stats → A) : M A := λ s, (f s, s).
Definition modify (f : Stats → Stats) : M unit := λ s, (tt, f s).

Notation "'let*' x := m 'in' k" := (bind m (λ x, k))
  (at level 10, x pattern, m at level 100, k at level 200).
Notation "m >>> k" := (bind m (λ _, k))
  (at level 100, k at level 200, right associativity).

(** Reading through a pointer.  A pointer handed out by the methods below
    always leads to an object; the default is never read. *)
Definition Network_ID_at (n : addr) (s : Stats) : Z :=
  from_option Network_ID 0 (Network_objs s !! n).
Definition Channel_ID_at (c : addr) (s : Stats) : Z :=
  from_option Channel_ID 0 (Channel_objs s !! c).
Definition User_ID_at (u : addr) (s : Stats) : Z :=
  from_option User_ID 0 (User_objs s !! u).

(** Updating the object behind a pointer in place. *)
Definition update_Network (n : addr) (f : Network → Network) : M unit :=
  modify (λ s, set_Network_objs (alter f n (Network_objs s)) s).
Definition update_Channel (c : addr) (f : Channel → Channel) : M unit :=
  modify (λ s, set_Channel_objs (alter f c (Channel_objs s)) s).
Definition update_User (u : addr) (f : User → User) : M unit :=
  modify (λ s, set_User_objs (alter f u (User_objs s)) s).

Section methods.
Context `{GoStrings}.

(** [&Network{...}], [newChannel], [NewUser]: a new object at the end of
    its store; the pointer to it is its place there. *)
Definition new_Network (n : Network) : M addr :=
  λ s, (length (Network_objs s), set_Network_objs (Network_objs s ++ [n]) s).
Definition new_Channel (c : Channel) : M addr :=
  λ s, (length (Channel_objs s), set_Channel_objs (Channel_objs s ++ [c]) s).
Definition new_User (u : User) : M addr :=
  λ s, (length (User_objs s), set_User_objs (User_objs s ++ [u]) s).

Definition GetNetwork (network : string) (s : Stats) : option addr :=
  networkByName s !! network.

Definition GetChannel (network channel : string) (s : Stats) : option addr :=
  match GetNetwork network s with
  | Some n => n' ← Network_objs s !! n; Network_channels n' !! channel
  | None => None
  end.

Definition GetUser (network nick : string) (s : Stats) : option addr :=
  match GetNetwork network s with
  | Some n => n' ← Network_objs s !! n; Network_users n' !! nick
  | None => None
  end.

Definition addNetwork (name : string) : M addr :=
  let* id := gets NetworkIDCount in
  modify (set_NetworkIDCount (wrap (id + 1))) >>>
  let* n := new_Network {|
    Network_Name := name;
    Network_ID := id;
    Network_ChannelIDs := [];
    Network_UserIDs := [];
    Network_MessageIDs := [];
    Network_URLCounter := Urls.NewURLs;
    Network_WordCounter := Urls.NewURLs;
    Network_channels := ∅;
    Network_users := ∅ |} in
  modify (λ s, set_Networks (<[id := n]> (Networks s)) s) >>>
  modify (λ s, set_networkByName (<[ToLower name := n]> (networkByName s)) s) >>>
  ret n.

Definition getNetwork (name : string) : M addr :=
  let* found := gets (λ s, networkByName s !! ToLower name) in
  match found with
  | Some n => ret n
  | None => addNetwork name
  end.

(** Modelled from the spec: [Network.addUser] is not among the sources.
    The network records the user's id and indexes the user under the
    case-folded nick, the key [getUser] looks up. *)
Definition Network_addUser (u : addr) (id : Z) (nick : string) (n : Network) : Network :=
  mkNetwork (Network_Name n) (Network_ID n) (Network_ChannelIDs n)
            (Network_UserIDs n ++ [id]) (Network_MessageIDs n)
            (Network_URLCounter n) (Network_WordCounter n)
            (Network_channels n) (<[ToLower nick := u]> (Network_users n)).

(** Modelled from the spec: [Network.addChannel] is not among the sources.
    The network records the channel's id and indexes the channel under
    the case-folded name, the key [getChannel] looks up. *)
Definition Network_addChannel (c : addr) (id : Z) (name : string) (n : Network) : Network :=
  mkNetwork (Network_Name n) (Network_ID n) (Network_ChannelIDs n ++ [id])
            (Network_UserIDs n) (Network_MessageIDs n)
            (Network_URLCounter n) (Network_WordCounter n)
            (<[ToLower name := c]> (Network_channels n)) (Network_users n).

(** Modelled from the spec: [NewUser] is not among the sources. *)
Definition NewUser (id networkID : Z) (nick : string) : User :=
  mkUser id networkID nick [] NewTextCounters ∅.

(** Modelled from the spec: [newChannel] is not among the sources. *)
Definition newChannel (id networkID : Z) (name : string) : Channel :=
  mkChannel id networkID name [] NewTextCounters 0 0.

Definition addChannel (n : addr) (name : string) : M addr :=
  let* id := gets ChannelIDCount in
  modify (set_ChannelIDCount (wrap (id + 1))) >>>
  let* nid := gets (Network_ID_at n) in
  let* c := new_Channel (newChannel id nid name) in
  let* cid := gets (Channel_ID_at c) in
  modify (λ s, set_Channels (<[cid := c]> (Channels s)) s) >>>
  update_Network n (Network_addChannel c cid name) >>>
  ret c.

Definition addUser (n : addr) (nick : string) : M addr :=
  let* id := gets UserIDCount in
  modify (set_UserIDCount (wrap (id + 1))) >>>
  let* nid := gets (Network_ID_at n) in
  let* u := new_User (NewUser id nid nick) in
  modify (λ s, set_Users (<[id := u]> (Users s)) s) >>>
  let* uid := gets (User_ID_at u) in
  update_Network n (Network_addUser u uid nick) >>>
  ret u.

(** Modelled from the spec: [User.addChannelUser] is not among the
    sources; it creates the aggregate of the user in that channel. *)
Definition User_addChannelUser (channel : string) (u : User) : User :=
  mkUser (User_ID u) (User_NetworkID u) (User_Nick u) (User_MessageIDs u)
         (User_counters u)
         (<[channel := mkChannelUser NewTextCounters]> (User_ChannelUsers u)).

(** The pointer to a channel user: the user and the key in its map. *)
Definition getChannelUser (user : addr) (channel : string) : M (addr * string) :=
  let channel := ToLower channel in
  let* found := gets (λ s, u ← User_objs s !! user; User_ChannelUsers u !! channel) in
  match found with
  | Some _ => ret (user, channel)
  | None => update_User user (User_addChannelUser channel) >>> ret (user, channel)
  end.

Definition getUser (n : addr) (nameOrHost : string) : M addr :=
  let nick := Nick nameOrHost in
  let* found := gets (λ s, n' ← Network_objs s !! n; Network_users n' !! ToLower nick) in
  match found with
  | Some u => ret u
  | None => addUser n nick
  end.

Definition getChannel (n : addr) (name : string) : M addr :=
  let* found := gets (λ s, n' ← Network_objs s !! n; Network_channels n' !! ToLower name) in
  match found with
  | Some c => ret c
  | None => addChannel n name
  end.

(** Modelled from the spec: [Channel.addMessage], [addKick] and
    [addAction] are not among the sources.  The channel appends the
    message id to its list and runs its scalar counters; a kick and an
    action each bump their count. *)
Definition Channel_addMessage (message : Message) (c : Channel) : Channel :=
  mkChannel (Channel_ID c) (Channel_NetworkID c) (Channel_Name c)
            (Channel_MessageIDs c ++ [Message_ID message])
            (TextCounters_addMessage message (Channel_counters c))
            (Channel_KickCount c) (Channel_ActionCount c).

(** Modelled from the spec: see [Channel_addMessage]. *)
Definition Channel_addKick (message : Message) (c : Channel) : Channel :=
  mkChannel (Channel_ID c) (Channel_NetworkID c) (Channel_Name c)
            (Channel_MessageIDs c) (Channel_counters c)
            (wrap (Channel_KickCount c + 1)) (Channel_ActionCount c).

(** Modelled from the spec: see [Channel_addMessage]. *)
Definition Channel_addAction (message : Message) (c : Channel) : Channel :=
  mkChannel (Channel_ID c) (Channel_NetworkID c) (Channel_Name c)
            (Channel_MessageIDs c) (Channel_counters c)
            (Channel_KickCount c) (wrap (Channel_ActionCount c + 1)).

(** Modelled from the spec: the word tracker is not among the sources; it
    is used the way the URL tracker of urls.go is, on the words it takes. *)
Definition WordCounter_addMessage (m : Message) (u : gmap string Z) : gmap string Z :=
  fold_left (λ u w, if wordRegex_found w then Urls.incr w u else u)
            (Split (Message_Message m)) u.

(** Modelled from the spec: [Network.addMessage] is not among the
    sources.  The network appends the message id to its list and feeds
    its two token trackers. *)
Definition Network_addMessage (message : Message) (n : Network) : Network :=
  mkNetwork (Network_Name n) (Network_ID n) (Network_ChannelIDs n)
            (Network_UserIDs n) (Network_MessageIDs n ++ [Message_ID message])
            (Urls.addMessage message (Network_URLCounter n))
            (WordCounter_addMessage message (Network_WordCounter n))
            (Network_channels n) (Network_users n).

(** Modelled from the spec: [User.addMessage] is not among the sources.
    The user appends the message id to its list and runs its scalar
    counters; called on a channel user, it runs that one's counters. *)
Definition User_addMessage (message : Message) (u : User) : User :=
  mkUser (User_ID u) (User_NetworkID u) (User_Nick u)
         (User_MessageIDs u ++ [Message_ID message])
         (TextCounters_addMessage message (User_counters u))
         (User_ChannelUsers u).

(** Modelled from the spec: [addMessage] on a channel user, the one under
    [key] in the map of its user. *)
Definition ChannelUser_addMessage (message : Message) (key : string) (u : User) : User :=
  mkUser (User_ID u) (User_NetworkID u) (User_Nick u) (User_MessageIDs u)
         (User_counters u)
         (alter (λ cu, mkChannelUser (TextCounters_addMessage message (ChannelUser_counters cu)))
                key (User_ChannelUsers u)).

(** [Stats.addMessage]; [c] and [cu] are nil ([None]) for a message
    without a channel. *)
Definition addMessage (k : MsgKind) (n : addr) (c : option addr) (u : addr)
    (cu : option (addr * string)) (d : Z) (m : string) : M Message :=
  let* id := gets MessageIDCount in
  modify (set_MessageIDCount (wrap (id + 1))) >>>
  let* uid := gets (User_ID_at u) in
  let message := mkMessage id d uid 0 m k in
  let* message :=
    match c with
    | Some c =>
        let* cid := gets (Channel_ID_at c) in
        let message := mkMessage id d uid cid m k in
        update_Channel c (Channel_addMessage message) >>>
        match k with
        | Kick => update_Channel c (Channel_addKick message)
        | Action => update_Channel c (Channel_addAction message)
        | _ => ret tt
        end >>>
        match cu with
        | Some (cu, key) => update_User cu (ChannelUser_addMessage message key)
        | None => ret tt
        end >>>
        ret message
    | None => ret message
    end in
  update_Network n (Network_addMessage message) >>>
  update_User u (User_addMessage message) >>>
  ret message.

(** The body of [Stats.AddMessage], with the message it builds. *)
Definition AddMessage_message (kind : MsgKind) (network channel hostmask : string)
    (date : Z) (message : string) : M Message :=
  let* n := getNetwork network in
  let* u := getUser n hostmask in
  let* ccu :=
    if String.eqb channel "" then ret (None, None)
    else
      let* c := getChannel n channel in
      let* cu := getChannelUser u channel in
      ret (Some c, Some cu) in
  addMessage kind n (fst ccu) u (snd ccu) date message.

(** [Stats.AddMessage]: the state after the call. *)
Definition AddMessage (kind : MsgKind) (network channel hostmask : string)
    (date : Z) (message : string) (s : Stats) : Stats :=
  snd (AddMessage_message kind network channel hostmask date message s).

(** The Stats that [NewStats] builds when there is nothing to load. *)
Definition emptyStats : Stats := {|
  Network_objs := []; Channel_objs := []; User_objs := [];
  Channels := ∅; Networks := ∅; Users := ∅;
  networkByName := ∅;
  NetworkIDCount := 1; MessageIDCount := 1; ChannelIDCount := 1; UserIDCount := 1
|}.

(** One call of [AddMessage], and a run of calls: the messages built and
    the state reached. *)
Record Call : Type := mkCall {
  call_kind : MsgKind;
  call_network : string;
  call_channel : string;
  call_hostmask : string;
  call_date : Z;
  call_message : string
}.

Definition AddMessage_call (c : Call) : M Message :=
  AddMessage_message (call_kind c) (call_network c) (call_channel c)
                     (call_hostmask c) (call_date c) (call_message c).

Fixpoint AddMessages (calls : list Call) : M (list Message) :=
  match calls with
  | [] => ret []
  | c :: calls' =>
      let* m := AddMessage_call c in
      let* ms := AddMessages calls' in
      ret (m :: ms)
  end.

End methods.

(** *** Save and load *)

(** What gob writes for a Stats: the exported fields, each pointer
    replaced by the object it leads to.  Of a Network the maps [channels]
    and [users] are not exported; they are empty in the snapshot. *)
Record Snapshot : Type := mkSnapshot {
  snap_Channels : gmap Z Channel;
  snap_Networks : gmap Z Network;
  snap_Users : gmap Z User;
  snap_NetworkIDCount : Z;
  snap_MessageIDCount : Z;
  snap_ChannelIDCount : Z;
  snap_UserIDCount : Z
}.

Definition exported (n : Network) : Network :=
  mkNetwork (Network_Name n) (Network_ID n) (Network_ChannelIDs n)
            (Network_UserIDs n) (Network_MessageIDs n)
            (Network_URLCounter n) (Network_WordCounter n) ∅ ∅.

Definition gob_Encode (s : Stats) : Snapshot := {|
  snap_Channels := omap (λ c, Channel_objs s !! c) (Channels s);
  snap_Networks := omap (λ n, exported <$> Network_objs s !! n) (Networks s);
  snap_Users := omap (λ u, User_objs s !! u) (Users s);
  snap_NetworkIDCount := NetworkIDCount s;
  snap_MessageIDCount := MessageIDCount s;
  snap_ChannelIDCount := ChannelIDCount s;
  snap_UserIDCount := UserIDCount s
|}.

(** Decoding allocates one object for each entry of a table. *)
Definition decoded_objs {A} (m : gmap Z A) : list A := snd <$> map_to_list m.
Definition decoded_table {A} (m : gmap Z A) : gmap Z addr :=
  list_to_map (imap (λ i kv, (fst kv, i)) (map_to_list m)).

(** The Stats that [decoder.Decode(&stats)] fills: [networkByName] is not
    exported and stays nil. *)
Definition gob_Decode (snap : Snapshot) : Stats := {|
  Network_objs := decoded_objs (snap_Networks snap);
  Channel_objs := decoded_objs (snap_Channels snap);
  User_objs := decoded_objs (snap_Users snap);
  Channels := decoded_table (snap_Channels snap);
  Networks := decoded_table (snap_Networks snap);
  Users := decoded_table (snap_Users snap);
  networkByName := ∅;
  NetworkIDCount := snap_NetworkIDCount snap;
  MessageIDCount := snap_MessageIDCount snap;
  ChannelIDCount := snap_ChannelIDCount snap;
  UserIDCount := snap_UserIDCount snap
|}.

Inductive error : Type :=
| ErrNotExist
| ErrOther (msg : string).

(** [os.IsNotExist] *)
Definition IsNotExist (err : error) : bool :=
  match err with ErrNotExist => true | ErrOther _ => false end.

(** What the file data.db holds. *)
Inductive file_content : Type :=
| NotGzip
| NotGob
| Gob (snap : Snapshot).

(** The file data.db of the working directory, as [fileOpener] finds it. *)
Inductive data_db : Type :=
| NoFile
| NoAccess (msg : string)
| File (content : file_content).

(** [fileOpener.Open("./data.db")] *)
Definition Open (db : data_db) : file_content + error :=
  match db with
  | NoFile => inr ErrNotExist
  | NoAccess msg => inr (ErrOther msg)
  | File content => inl content
  end.

Section persistence.
Context `{GoStrings} `{GoRuntime}.

(** Modelled from the spec: [Network.buildIndexes] is not among the
    sources.  It rebuilds the name index of the network's channels and
    the nick index of its users by a scan of the tables of Stats. *)
Definition Network_buildIndexes (s : Stats) (n : Network) : Network :=
  let channels :=
    fold_left (λ idx '(_, c),
                 match Channel_objs s !! c with
                 | Some ch => if Channel_NetworkID ch =? Network_ID n
                              then <[ToLower (Channel_Name ch) := c]> idx else idx
                 | None => idx
                 end) (map_range (Channels s)) ∅ in
  let users :=
    fold_left (λ idx '(_, u),
                 match User_objs s !! u with
                 | Some us => if User_NetworkID us =? Network_ID n
                              then <[ToLower (User_Nick us) := u]> idx else idx
                 | None => idx
                 end) (map_range (Users s)) ∅ in
  mkNetwork (Network_Name n) (Network_ID n) (Network_ChannelIDs n)
            (Network_UserIDs n) (Network_MessageIDs n)
            (Network_URLCounter n) (Network_WordCounter n) channels users.

Definition buildIndexes (s : Stats) : Stats :=
  let s := set_networkByName ∅ s in
  fold_left (λ s '(_, n),
               match Network_objs s !! n with
               | Some n' =>
                   let s := set_networkByName (<[Network_Name n' := n]> (networkByName s)) s in
                   set_Network_objs (alter (Network_buildIndexes s) n (Network_objs s)) s
               | None => s
               end) (map_range (Networks s)) s.

(** [Save]; [encode_err] is the error [enc.Encode] gives, if any (the
    error of [Create] is dropped, and shows as a failed write). *)
Definition Save (encode_err : option error) (s : Stats) : result (bool * data_db) :=
  match encode_err with
  | Some err => Exit 1
  | None => Ok (true, File (Gob (gob_Encode s)))
  end.

Definition loadDatabase (db : data_db) : result (option Stats * option error) :=
  match Open db with
  | inr err =>
      if IsNotExist err then Ok (None, None) else Ok (None, Some err)
  | inl NotGzip => Panic
  | inl NotGob => Ok (None, Some (ErrOther "gob"))
  | inl (Gob snap) => Ok (Some (buildIndexes (gob_Decode snap)), None)
  end.

Definition NewStats (db : data_db) : result (option Stats) :=
  match loadDatabase db with
  | Ok (_, Some err) => Ok None
  | Ok (Some s, None) => Ok (Some s)
  | Ok (None, None) => Ok (Some emptyStats)
  | Panic => Panic
  | Exit status => Exit status
  end.

End persistence.
End StatsDB.

(** ** Library functions on ASCII text, to run the definitions *)

Definition lower_ascii (c : ascii) : ascii :=
  let n := N_of_ascii c in
  if (65 <=? n)%N && (n <=? 90)%N then ascii_of_N (n + 32) else c.

Fixpoint ascii_ToLower (s : string) : string :=
  match s with
  | EmptyString => EmptyString
  | String c s' => String (lower_ascii c) (ascii_ToLower s')
  end.

(** White space of ASCII: tab, line feed, vertical tab, form feed,
    carriage return, space. *)
Definition is_space (c : ascii) : bool :=
  let n := N_of_ascii c in
  ((9 <=? n)%N && (n <=? 13)%N) || (n =? 32)%N.

Fixpoint fields_from (s : string) (word : string) : list string :=
  let flush := match word with EmptyString => [] | _ => [word] end in
  match s with
  | EmptyString => flush
  | String c s' =>
      if is_space c then flush ++ fields_from s' EmptyString
      else fields_from s' (word +:+ String c EmptyString)
  end.

Definition ascii_Fields (s : string) : list string := fields_from s EmptyString.

(** The nick of a hostmask nick!user@host: what comes before the first
    ['!'] or ['@']. *)
Fixpoint ascii_Nick (host : string) : string :=
  match host with
  | EmptyString => EmptyString
  | String c s' =>
      if Ascii.eqb c "!" || Ascii.eqb c "@" then EmptyString
      else String c (ascii_Nick s')
  end.

Lemma lower_ascii_idem c : lower_ascii (lower_ascii c) = lower_ascii c.
Proof.
  destruct c as [[] [] [] [] [] [] [] []]; reflexivity.
Qed.

Lemma ascii_ToLower_idem s : ascii_ToLower (ascii_ToLower s) = ascii_ToLower s.
Proof.
  induction s as [|c s IH]; simpl; [done|].
  by rewrite lower_ascii_idem, IH.
Qed.

Definition ascii_strings : GoStrings := {|
  ToLower := ascii_ToLower;
  ToLower_idem := ascii_ToLower_idem;
  Fields := ascii_Fields;
  Nick := ascii_Nick;
  wordRegex_found := λ w, negb (String.eqb w "")
|}.

(** * Properties *)

(** ** The matcher computes the meaning of the operators *)

Module RegexpProps.
Import Regexp.

Lemma matches_suffix total r s x : matches total r s x → x `suffix_of` s.
Proof.
  induction 1; try done.
  - by apply suffix_cons_r.
  - by apply suffix_cons_r.
  - by etrans.
  - by etrans.
Qed.

Lemma star_ends_self step fuel s : In s (star_ends step fuel s).
Proof. destruct fuel; simpl; auto. Qed.

Lemma star_ends_mono step fuel1 : ∀ fuel2 s x,
  (fuel1 ≤ fuel2)%nat → In x (star_ends step fuel1 s) → In x (star_ends step fuel2 s).
Proof.
  induction fuel1 as [|fuel1 IH]; intros fuel2 s x Hle Hin.
  - destruct Hin as [<-|[]]. apply star_ends_self.
  - destruct fuel2 as [|fuel2]; [lia|].
    simpl in *. destruct Hin as [Hin|Hin]; [by left|right].
    apply in_flat_map in Hin as (s' & Hs' & Hin).
    apply in_flat_map. exists s'. split; [done|].
    destruct (length s' <? length s)%nat; [|done].
    apply IH; [lia|done].
Qed.

Lemma ends_sound total r : ∀ s x, In x (ends total r s) → matches total r s x.
Proof.
  induction r as [|ranges| | | |r1 IH1 r2 IH2|r1 IH1 r2 IH2|r IH]; intros s x Hin; simpl in Hin.
  - destruct Hin as [<-|[]]. constructor.
  - destruct s as [|c s]; [done|].
    destruct (in_class ranges c) eqn:E; [|done].
    destruct Hin as [<-|[]]. by constructor.
  - destruct s as [|c s]; [done|].
    destruct (Ascii.eqb c newline) eqn:E; [done|].
    destruct Hin as [<-|[]]. constructor. by apply Ascii.eqb_neq.
  - destruct (length s =? total)%nat eqn:E; [|done].
    destruct Hin as [<-|[]]. constructor. by apply Nat.eqb_eq.
  - destruct s; [|done]. destruct Hin as [<-|[]]. constructor.
  - apply in_flat_map in Hin as (s1 & H1 & H2).
    econstructor; eauto.
  - apply in_app_or in Hin as [Hin|Hin].
    + apply matches_Alternate_l; auto.
    + apply matches_Alternate_r; auto.
  - remember (length s) as fuel eqn:Hfuel. clear Hfuel.
    revert s x Hin. induction fuel as [|fuel IHf]; intros s x Hin; simpl in Hin.
    + destruct Hin as [<-|[]]. constructor.
    + destruct Hin as [<-|Hin]; [constructor|].
      apply in_flat_map in Hin as (s1 & H1 & H2).
      destruct (length s1 <? length s)%nat; [|done].
      eapply matches_Star_more; eauto.
Qed.

Lemma ends_complete total r s x : matches total r s x → In x (ends total r s).
Proof.
  induction 1 as [s|ranges c s Hc|c s Hc|s Hs| |r1 r2 s s1 s2 _ IH1 _ IH2
                 |r1 r2 s s1 _ IH|r1 r2 s s1 _ IH|r s|r s s1 s2 H1 IH1 H2 IH2]; simpl.
  - by left.
  - rewrite Hc. by left.
  - apply Ascii.eqb_neq in Hc. rewrite Hc. by left.
  - apply Nat.eqb_eq in Hs. rewrite Hs. by left.
  - by left.
  - apply in_flat_map. eauto.
  - apply in_or_app. by left.
  - apply in_or_app. by right.
  - apply star_ends_self.
  - simpl in IH2.
    pose proof (matches_suffix _ _ _ _ H1) as Hsuf.
    destruct (decide (length s1 = length s)) as [Heq|Hne].
    + assert (s1 = s) as ->; [|done].
      destruct Hsuf as [k ->]. rewrite length_app in Heq.
      destruct k; [done|simpl in Heq; lia].
    + apply suffix_length in Hsuf.
      destruct (length s) as [|fuel] eqn:Hlen; [lia|].
      simpl. right. apply in_flat_map. exists s1. split; [done|].
      rewrite Hlen.
      assert ((length s1 <? S fuel)%nat = true) as -> by (apply Nat.ltb_lt; lia).
      eapply star_ends_mono; [|exact IH2]. lia.
Qed.

Lemma ends_matches total r s x : In x (ends total r s) ↔ matches total r s x.
Proof. split; [apply ends_sound|apply ends_complete]. Qed.

Lemma in_tails (s w : list ascii) : In s (tails w) ↔ s `suffix_of` w.
Proof.
  induction w as [|c w IH]; simpl.
  - split.
    + intros [<-|[]]. done.
    + intros Hs. left. symmetry. by apply suffix_nil_inv.
  - split.
    + intros [<-|Hin]; [done|]. apply suffix_cons_r. tauto.
    + intros [[|c' k] Hk]; simpl in Hk.
      * left. done.
      * right. apply IH. exists k. congruence.
Qed.

(** [FindStringSubmatch] finds a match exactly when the expression
    matches at some place of the word. *)
Lemma FindStringSubmatch_found_iff re w :
  FindStringSubmatch_found re w = true ↔
  ∃ s x, s `suffix_of` list_ascii_of_string w ∧
         matches (length (list_ascii_of_string w)) re s x.
Proof.
  unfold FindStringSubmatch_found. rewrite existsb_exists. split.
  - intros (s & Hs & Hm). apply in_tails in Hs.
    destruct (ends _ re s) as [|x l] eqn:E; [done|].
    exists s, x. split; [done|]. apply ends_sound. rewrite E. by left.
  - intros (s & x & Hs & Hm). exists s. split; [by apply in_tails|].
    apply ends_complete in Hm. by destruct (ends _ re s).
Qed.

(** An expression without [^] and [$] has a language: the prefixes it can
    match, whatever follows. *)
Definition lang (total : nat) (r : regexp) (P : list ascii → Prop) : Prop :=
  ∀ s x, matches total r s x ↔ ∃ p, s = p ++ x ∧ P p.

Lemma lang_ext total r P Q : lang total r P → (∀ p, P p ↔ Q p) → lang total r Q.
Proof.
  intros HP HPQ s x. rewrite (HP s x).
  split; intros (p & -> & Hp); exists p; split; auto; by apply HPQ.
Qed.

Lemma lang_EmptyMatch total : lang total OpEmptyMatch (λ p, p = []).
Proof.
  intros s x. split.
  - inversion 1; subst. by exists [].
  - intros (p & -> & ->). constructor.
Qed.

Lemma lang_CharClass total ranges :
  lang total (OpCharClass ranges) (λ p, ∃ c, p = [c] ∧ in_class ranges c = true).
Proof.
  intros s x. split.
  - inversion 1; subst. exists [c]. eauto.
  - intros (p & -> & c & -> & Hc). by constructor.
Qed.

Lemma lang_AnyCharNotNL total :
  lang total OpAnyCharNotNL (λ p, ∃ c, p = [c] ∧ c ≠ newline).
Proof.
  intros s x. split.
  - inversion 1; subst. exists [c]. eauto.
  - intros (p & -> & c & -> & Hc). by constructor.
Qed.

Lemma lang_Concat total r1 r2 P1 P2 :
  lang total r1 P1 → lang total r2 P2 →
  lang total (OpConcat r1 r2) (λ p, ∃ p1 p2, p = p1 ++ p2 ∧ P1 p1 ∧ P2 p2).
Proof.
  intros H1 H2 s x. split.
  - inversion 1 as [| | | | |? ? ? s1 ? Hm1 Hm2| | | |]; subst.
    apply H1 in Hm1 as (p1 & -> & Hp1). apply H2 in Hm2 as (p2 & -> & Hp2).
    exists (p1 ++ p2). rewrite <- (assoc_L (++)). eauto 10.
  - intros (p & -> & p1 & p2 & -> & Hp1 & Hp2).
    apply matches_Concat with (s1 := p2 ++ x).
    + apply H1. exists p1. by rewrite <- (assoc_L (++)).
    + apply H2. eauto.
Qed.

Lemma lang_Alternate total r1 r2 P1 P2 :
  lang total r1 P1 → lang total r2 P2 →
  lang total (OpAlternate r1 r2) (λ p, P1 p ∨ P2 p).
Proof.
  intros H1 H2 s x. split.
  - inversion 1 as [| | | | | |? ? ? ? Hm|? ? ? ? Hm| |]; subst.
    + apply H1 in Hm as (p & -> & Hp). eauto.
    + apply H2 in Hm as (p & -> & Hp). eauto.
  - intros (p & -> & [Hp|Hp]).
    + apply matches_Alternate_l, H1. eauto.
    + apply matches_Alternate_r, H2. eauto.
Qed.

Lemma lang_Star total r P :
  lang total r P →
  lang total (OpStar r) (λ p, ∃ ps, p = concat ps ∧ Forall P ps).
Proof.
  intros Hr s x. split.
  - intros Hm. remember (OpStar r) as r' eqn:Hr'.
    induction Hm as [| | | | | | | |r0 s|r0 s s1 s2 Hm1 _ Hm2 IH]; try discriminate.
    + exists []. split; [done|]. by exists [].
    + injection Hr' as ->.
      apply Hr in Hm1 as (p1 & -> & Hp1).
      destruct (IH eq_refl) as (p2 & -> & ps & -> & Hps).
      exists (p1 ++ concat ps). rewrite <- (assoc_L (++)). split; [done|].
      exists (p1 :: ps). split; [done|]. by constructor.
  - intros (p & -> & ps & -> & Hps).
    induction Hps as [|p1 ps Hp1 _ IH]; simpl.
    + constructor.
    + rewrite <- (assoc_L (++)).
      eapply matches_Star_more; [|exact IH].
      apply Hr. eauto.
Qed.

Lemma lang_Quest total r P :
  lang total r P → lang total (OpQuest r) (λ p, P p ∨ p = []).
Proof. intros Hr. apply lang_Alternate; [done|apply lang_EmptyMatch]. Qed.

(** *** Runs of characters of one class *)

Section class_runs.
Context (total : nat) (r : regexp) (Q : ascii → Prop).
Hypothesis Hr : lang total r (λ p, ∃ c, p = [c] ∧ Q c).

Lemma concat_singletons (ps : list (list ascii)) :
  Forall (λ p, ∃ c, p = [c] ∧ Q c) ps → Forall Q (concat ps).
Proof.
  induction 1 as [|p ps (c & -> & Hc) _ IH]; simpl; [constructor|by constructor].
Qed.

Lemma lang_Star_class : lang total (OpStar r) (Forall Q).
Proof.
  eapply lang_ext; [apply lang_Star, Hr|].
  intros p. split.
  - intros (ps & -> & Hps). by apply concat_singletons.
  - intros Hp. exists (map (λ c, [c]) p). split.
    + induction p as [|c p IH]; simpl; [done|].
      f_equal. apply IH. by inversion Hp.
    + induction Hp; simpl; constructor; eauto.
Qed.

Lemma lang_Plus_class : lang total (OpPlus r) (λ p, p ≠ [] ∧ Forall Q p).
Proof.
  eapply lang_ext; [apply lang_Concat; [apply Hr|apply lang_Star_class]|].
  intros p. split.
  - intros (p1 & p2 & -> & (c & -> & Hc) & Hp2). split; [done|by constructor].
  - intros [Hne Hp]. destruct Hp as [|c p Hc Hp]; [done|].
    exists [c], p. eauto.
Qed.

Lemma lang_times_class n : lang total (times n r) (λ p, length p = n ∧ Forall Q p).
Proof.
  induction n as [|n IH]; simpl.
  - eapply lang_ext; [apply lang_EmptyMatch|].
    intros p. split; [intros ->; by split|intros [Hl _]; by destruct p].
  - eapply lang_ext; [apply lang_Concat; [apply Hr|apply IH]|].
    intros p. split.
    + intros (p1 & p2 & -> & (c & -> & Hc) & <- & Hp2). split; [done|by constructor].
    + intros [Hl Hp]. destruct Hp as [|c p Hc Hp]; [done|].
      exists [c], p. simpl in Hl. split; [done|]. split; [eauto|]. split; [lia|done].
Qed.

Lemma lang_upto_class n : lang total (upto n r) (λ p, (length p ≤ n)%nat ∧ Forall Q p).
Proof.
  induction n as [|n IH]; simpl.
  - eapply lang_ext; [apply lang_EmptyMatch|].
    intros p. split; [intros ->; by split|intros [Hl _]; destruct p; [done|simpl in Hl; lia]].
  - eapply lang_ext; [apply lang_Quest, lang_Concat; [apply Hr|apply IH]|].
    intros p. split.
    + intros [(p1 & p2 & -> & (c & -> & Hc) & Hl & Hp2)| ->].
      * split; [simpl; lia|by constructor].
      * split; [simpl; lia|constructor].
    + intros [Hl Hp]. destruct Hp as [|c p Hc Hp]; [by right|left].
      exists [c], p. simpl in Hl. split; [done|]. split; [eauto|]. split; [lia|done].
Qed.

Lemma lang_Repeat_class min max :
  (min ≤ max)%nat →
  lang total (OpRepeat min max r) (λ p, (min ≤ length p ≤ max)%nat ∧ Forall Q p).
Proof.
  intros Hle.
  eapply lang_ext; [apply lang_Concat; [apply lang_times_class|apply lang_upto_class]|].
  intros p. split.
  - intros (p1 & p2 & -> & [Hl1 Hp1] & [Hl2 Hp2]).
    rewrite length_app. split; [lia|]. by apply Forall_app.
  - intros [Hl Hp]. exists (take min p), (drop min p).
    rewrite take_drop. split; [done|].
    rewrite length_take, length_drop. repeat split.
    + lia.
    + by apply Forall_take.
    + lia.
    + by apply Forall_drop.
Qed.

End class_runs.

Lemma N_of_ascii_inj c1 c2 : N_of_ascii c1 = N_of_ascii c2 → c1 = c2.
Proof.
  intros Heq. apply (f_equal ascii_of_N) in Heq.
  by rewrite !ascii_N_embedding in Heq.
Qed.

Lemma in_class_single c c' : in_class [(c, c)] c' = true ↔ c' = c.
Proof.
  unfold in_class, in_range. simpl.
  rewrite orb_false_r, andb_true_iff, !N.leb_le. split.
  - intros [H1 H2]. apply N_of_ascii_inj. lia.
  - intros ->. lia.
Qed.

Lemma lang_Literal total c : lang total (OpLiteral c) (λ p, p = [c]).
Proof.
  eapply lang_ext; [apply lang_CharClass|].
  intros p. split.
  - intros (c' & -> & Hc). by apply in_class_single in Hc as ->.
  - intros ->. exists c. split; [done|]. by apply in_class_single.
Qed.

Lemma lang_String total l : lang total (OpString l) (λ p, p = l).
Proof.
  induction l as [|c l IH]; simpl.
  - apply lang_EmptyMatch.
  - eapply lang_ext; [apply lang_Concat; [apply lang_Literal|apply IH]|].
    intros p. split.
    + by intros (p1 & p2 & -> & -> & ->).
    + intros ->. by exists [c], l.
Qed.

(** An expression that ends with [$] matches to the end of the text. *)
Definition anchored (total : nat) (r : regexp) (P : list ascii → Prop) : Prop :=
  ∀ s x, matches total r s x ↔ x = [] ∧ P s.

Lemma anchored_EndText total : anchored total OpEndText (λ p, p = []).
Proof.
  intros s x. split.
  - inversion 1. done.
  - intros [-> ->]. constructor.
Qed.

Lemma anchored_Concat total r1 r2 P1 P2 :
  lang total r1 P1 → anchored total r2 P2 →
  anchored total (OpConcat r1 r2) (λ p, ∃ p1 p2, p = p1 ++ p2 ∧ P1 p1 ∧ P2 p2).
Proof.
  intros H1 H2 s x. split.
  - inversion 1 as [| | | | |? ? ? s1 ? Hm1 Hm2| | | |]; subst.
    apply H1 in Hm1 as (p1 & -> & Hp1). apply H2 in Hm2 as [-> Hp2].
    split; [done|]. eauto 10.
  - intros (-> & p1 & p2 & -> & Hp1 & Hp2).
    apply matches_Concat with (s1 := p2).
    + apply H1. eauto.
    + by apply H2.
Qed.

Lemma anchored_ext total r P Q :
  anchored total r P → (∀ p, P p ↔ Q p) → anchored total r Q.
Proof. intros HP HPQ s x. rewrite (HP s x). by rewrite HPQ. Qed.

End RegexpProps.

(** ** What [urlRegex] accepts *)

Module UrlRegexProps.
Import Regexp RegexpProps Urls.

Lemma in_class_alnum c :
  in_class [("a"%char, "z"%char); ("0"%char, "9"%char)] c = true ↔ alnum_char c.
Proof.
  unfold in_class, in_range, alnum_char, lower_letter, digit_char. simpl.
  rewrite orb_false_r, orb_true_iff, !andb_true_iff, !N.leb_le. tauto.
Qed.

Lemma in_class_lower c : in_class [("a"%char, "z"%char)] c = true ↔ lower_letter c.
Proof.
  unfold in_class, in_range, lower_letter. simpl.
  rewrite orb_false_r, !andb_true_iff, !N.leb_le. tauto.
Qed.

Lemma in_class_digit c : in_class [("0"%char, "9"%char)] c = true ↔ digit_char c.
Proof.
  unfold in_class, in_range, digit_char. simpl.
  rewrite orb_false_r, !andb_true_iff, !N.leb_le. tauto.
Qed.

Lemma in_class_hyphen_or_dot c :
  in_class [("-"%char, "-"%char); ("."%char, "."%char)] c = true ↔ hyphen_or_dot c.
Proof.
  unfold in_class, in_range, hyphen_or_dot. simpl.
  rewrite orb_false_r, orb_true_iff, !andb_true_iff, !N.leb_le. split.
  - intros [[H1 H2]|[H1 H2]]; [left|right]; apply N_of_ascii_inj; simpl; lia.
  - intros [->| ->]; simpl; lia.
Qed.

Section pieces.
Context (total : nat).

Lemma lang_class_as ranges (Q : ascii → Prop) :
  (∀ c, in_class ranges c = true ↔ Q c) →
  lang total (OpCharClass ranges) (λ p, ∃ c, p = [c] ∧ Q c).
Proof.
  intros HQ. eapply lang_ext; [apply lang_CharClass|].
  intros p. split; intros (c & -> & Hc); exists c; split; auto; by apply HQ.
Qed.

Lemma lang_label : lang total (OpPlus alnum) label.
Proof. apply lang_Plus_class, lang_class_as, in_class_alnum. Qed.

Lemma lang_more :
  lang total
    (OpStar (OpCapture
       (OpConcat (OpRepeat 1 1 (OpCharClass [("-"%char, "-"%char); ("."%char, "."%char)]))
                 (OpPlus alnum))))
    (λ p, ∃ more, p = concat (map joined more) ∧
                  Forall (λ cl, hyphen_or_dot (fst cl) ∧ label (snd cl)) more).
Proof.
  unfold OpCapture.
  eapply lang_ext.
  { apply lang_Star, lang_Concat; [|apply lang_label].
    apply lang_Repeat_class with (Q := hyphen_or_dot); [|lia].
    apply lang_class_as, in_class_hyphen_or_dot. }
  intros p. split.
  - intros (ps & -> & Hps).
    induction Hps as [|p1 ps (q1 & q2 & -> & [Hl Hq1] & Hq2) _ (more & Hmore & Hall)].
    + exists []. split; [done|constructor].
    + destruct q1 as [|c [|]]; simpl in Hl; try lia.
      exists ((c, q2) :: more). simpl. rewrite Hmore. split; [done|].
      constructor; [|done]. simpl. split; [by inversion Hq1|done].
  - intros (more & -> & Hall). exists (map joined more). split; [done|].
    induction Hall as [|[c l] more [Hc Hl] _ IH]; simpl; constructor; [|done].
    exists [c], l. simpl in *. split; [done|]. split; [|done].
    split; [lia|]. by constructor.
Qed.

Lemma lang_tld : lang total (OpRepeat 2 6 lower) tld.
Proof.
  apply lang_Repeat_class with (Q := lower_letter); [|lia].
  apply lang_class_as, in_class_lower.
Qed.

Lemma lang_port :
  lang total (OpQuest (OpCapture (OpConcat (OpLiteral ":"%char) (OpRepeat 1 5 digit)))) port.
Proof.
  unfold OpCapture.
  eapply lang_ext.
  { apply lang_Quest, lang_Concat; [apply lang_Literal|].
    apply lang_Repeat_class with (Q := digit_char); [|lia].
    apply lang_class_as, in_class_digit. }
  intros p. unfold port. split.
  - intros [(p1 & ds & -> & -> & Hl & Hds)| ->]; [right|by left].
    exists ds. auto.
  - intros [->|(ds & -> & Hl & Hds)]; [by right|left].
    exists [":"%char], ds. auto.
Qed.

Lemma lang_path :
  lang total (OpQuest (OpCapture (OpConcat (OpLiteral "/"%char) (OpStar OpAnyCharNotNL)))) path.
Proof.
  unfold OpCapture.
  eapply lang_ext.
  { apply lang_Quest, lang_Concat; [apply lang_Literal|].
    apply lang_Star_class with (Q := λ c, c ≠ newline), lang_AnyCharNotNL. }
  intros p. unfold path. split.
  - intros [(p1 & rest & -> & -> & Hrest)| ->]; [right|by left].
    exists rest. auto.
  - intros [->|(rest & -> & Hrest)]; [by right|left].
    exists ["/"%char], rest. auto.
Qed.

(** The second branch matches a bare domain that runs to the end. *)
Lemma anchored_domain_re : anchored total domain_re bare_domain.
Proof.
  eapply anchored_ext.
  { unfold domain_re.
    apply anchored_Concat; [apply lang_label|].
    apply anchored_Concat; [apply lang_more|].
    apply anchored_Concat; [apply lang_Literal|].
    apply anchored_Concat; [apply lang_tld|].
    apply anchored_Concat; [apply lang_port|].
    apply anchored_Concat; [apply lang_path|].
    apply anchored_EndText. }
  intros d. unfold bare_domain. split.
  - intros (l0 & ? & -> & Hl0 & pm & ? & -> & (more & -> & Hmore) & pd & ? & -> & -> &
            t & ? & -> & Ht & p & ? & -> & Hp & q & ? & -> & Hq & ->).
    exists l0, more, t, p, q. rewrite (right_id_L [] (++)). done.
  - intros (l0 & more & t & p & q & -> & Hl0 & Hmore & Ht & Hp & Hq).
    exists l0, (concat (map joined more) ++ "."%char :: t ++ p ++ q).
    split; [done|]. split; [done|].
    exists (concat (map joined more)), ("."%char :: t ++ p ++ q).
    split; [done|]. split; [by exists more|].
    exists ["."%char], (t ++ p ++ q). split; [done|]. split; [done|].
    exists t, (p ++ q). split; [done|]. split; [done|].
    exists p, q. split; [done|]. split; [done|].
    exists q, []. rewrite (right_id_L [] (++)). done.
Qed.

(** The first branch matches a scheme at the very start of the text. *)
Lemma matches_scheme_re s x :
  matches total scheme_re s x ↔
  length s = total ∧ (s = chars "http://" ++ x ∨ s = chars "https://" ++ x).
Proof.
  assert (lang total
            (OpConcat (OpCapture (OpAlternate (OpString (chars "http"))
                                              (OpString (chars "https"))))
                      (OpString (chars "://")))
            (λ p, p = chars "http://" ∨ p = chars "https://")) as Hl.
  { unfold OpCapture. eapply lang_ext.
    { apply lang_Concat; [apply lang_Alternate|]; apply lang_String. }
    intros p. split.
    - intros (p1 & p2 & -> & [->| ->] & ->); [by left|by right].
    - intros [->| ->].
      + exists (chars "http"), (chars "://"). auto.
      + exists (chars "https"), (chars "://"). auto. }
  unfold scheme_re. split.
  - inversion 1 as [| | | | |? ? ? s1 ? Hm1 Hm2| | | |]; subst.
    inversion Hm1; subst.
    apply Hl in Hm2 as (p & -> & [->| ->]); auto.
  - intros [Hlen Hs].
    apply matches_Concat with (s1 := s); [by constructor|].
    apply Hl. destruct Hs as [->| ->]; eauto.
Qed.

End pieces.

Lemma prefix_chars p w :
  String.prefix p w = true ↔ ∃ x, chars w = chars p ++ x.
Proof.
  unfold chars. revert w. induction p as [|c p IH]; intros [|c' w]; simpl.
  - split; [|done]. intros _. by exists [].
  - split; [|done]. intros _. eauto.
  - split; [done|]. intros [x Hx]. done.
  - destruct (ascii_dec c c') as [->|Hne].
    + rewrite IH. split; intros [x Hx]; exists x; congruence.
    + split; [done|]. intros [x Hx]. congruence.
Qed.

(** A word is counted exactly when it starts with a scheme or ends with
    a bare domain. *)
Lemma urlRegex_found_iff w :
  FindStringSubmatch_found urlRegex w = true ↔ url_word w.
Proof.
  rewrite FindStringSubmatch_found_iff. unfold url_word, urlRegex.
  fold (chars w). split.
  - intros (s & x & Hsuf & Hm).
    inversion Hm as [| | | | | |? ? ? ? Hm'|? ? ? ? Hm'| |]; subst.
    + apply matches_scheme_re in Hm' as [Hlen Hs].
      assert (s = chars w) as ->.
      { destruct Hsuf as [k Hk]. rewrite Hk, length_app in Hlen.
        destruct k; [done|simpl in Hlen; lia]. }
      destruct Hs as [Hs|Hs]; [left|right; left]; apply prefix_chars; eauto.
    + apply anchored_domain_re in Hm' as [-> Hd].
      destruct Hsuf as [k Hk]. right; right. eauto.
  - intros [Hp|[Hp|(before & d & Hw & Hd)]].
    + apply prefix_chars in Hp as [x Hx].
      exists (chars w), x. split; [done|].
      apply matches_Alternate_l, matches_scheme_re. auto.
    + apply prefix_chars in Hp as [x Hx].
      exists (chars w), x. split; [done|].
      apply matches_Alternate_l, matches_scheme_re. auto.
    + exists d, []. split; [by exists before|].
      apply matches_Alternate_r, anchored_domain_re. auto.
Qed.

(** Whether a text is a bare domain can be computed: run the second
    branch on it. *)
Lemma bare_domain_iff d :
  bare_domain d ↔ In [] (ends (length d) domain_re d).
Proof.
  rewrite ends_matches, (anchored_domain_re (length d) d []). tauto.
Qed.

End UrlRegexProps.

(** ** The URL tracker *)

Module UrlsProps.
Import Regexp RegexpProps Urls UrlRegexProps.

Lemma wrap_wrap_add x y : wrap (wrap x + y) = wrap (x + y).
Proof. unfold wrap. apply Zplus_mod_idemp_l. Qed.

Lemma Split_not_nil s : Split s ≠ [].
Proof. destruct s as [|c s]; simpl; [done|]. destruct (Ascii.eqb c space), (Split s); done. Qed.

Lemma Join_cons w ws : ws ≠ [] → Join (w :: ws) = w +:+ String space (Join ws).
Proof. by destruct ws. Qed.

(** [Split] cuts at every space and nowhere else. *)
Lemma Split_Join s :
  Join (Split s) = s ∧ Forall (λ w, ¬ In space (chars w)) (Split s).
Proof.
  induction s as [|c s [IHj IHf]]; simpl.
  - split; [done|]. constructor; [|constructor]. simpl. tauto.
  - pose proof (Split_not_nil s) as Hne.
    destruct (Ascii.eqb c space) eqn:E.
    + apply Ascii.eqb_eq in E as ->. split.
      * rewrite Join_cons, IHj; done.
      * constructor; [|done]. simpl. tauto.
    + apply Ascii.eqb_neq in E.
      destruct (Split s) as [|w ws]; [done|]. split.
      * destruct ws as [|w' ws].
        -- simpl in *. by rewrite IHj.
        -- rewrite Join_cons in IHj by done. rewrite Join_cons by done.
           rewrite <- IHj. reflexivity.
      * inversion IHf as [|? ? Hw Hws]; subst. constructor; [|done].
        unfold chars in *. simpl. intros [Hc|Hin]; [by subst|done].
Qed.

(** The count of a word after a run of increments. *)
Lemma fold_incr_lookup (counted : string → bool) ws : ∀ (u : urls) w,
  fold_left (λ u x, if counted x then incr x u else u) ws u !! w =
  if counted w && negb (occurrences w ws =? 0)
  then Some (wrap (default 0 (u !! w) + occurrences w ws))
  else u !! w.
Proof.
  unfold occurrences.
  induction ws as [|x ws IH]; intros u w; cbn [fold_left].
  - simpl. by rewrite andb_false_r.
  - rewrite IH. clear IH.
    destruct (string_dec x w) as [->|Hne].
    + rewrite count_occ_cons_eq by done. rewrite Nat2Z.inj_succ.
      pose proof (Nat2Z.is_nonneg (count_occ string_dec ws w)) as Hpos.
      destruct (counted w) eqn:Hc; cbn [andb]; [|done].
      unfold incr. rewrite lookup_insert_eq. cbn [default].
      assert ((Z.succ (Z.of_nat (count_occ string_dec ws w)) =? 0) = false) as ->
        by (apply Z.eqb_neq; lia).
      cbn [negb].
      destruct (Z.of_nat (count_occ string_dec ws w) =? 0) eqn:E; cbn [negb].
      * apply Z.eqb_eq in E. rewrite E. reflexivity.
      * unfold id. rewrite wrap_wrap_add. do 2 f_equal. lia.
    + rewrite count_occ_cons_neq by done.
      assert ((if counted x then incr x u else u) !! w = u !! w) as ->; [|done].
      destruct (counted x); [|done]. unfold incr. by rewrite lookup_insert_ne.
Qed.

Lemma occurrences_pos w ws : In w ws ↔ 0 < occurrences w ws.
Proof.
  unfold occurrences. rewrite (count_occ_In string_dec). lia.
Qed.

(** What [addMessage] does on every message: it cuts the text at single
    spaces and counts a word exactly when the pattern finds a match in
    it, which is when the word starts with http:// or https://, or ends
    with a bare domain (host, dot, top-level domain, optional port,
    optional path); the word as it stands is the token. *)
Theorem addMessage_counts_url_words (m : Message) (u : urls) :
  let words := Split (Message_Message m) in
  (Join words = Message_Message m ∧ Forall (λ w, ¬ In space (chars w)) words) ∧
  (∀ w, url_word w ∧ In w words →
        addMessage m u !! w = Some (wrap (default 0 (u !! w) + occurrences w words))) ∧
  (∀ w, ¬ (url_word w ∧ In w words) → addMessage m u !! w = u !! w).
Proof.
  intros words. split; [apply Split_Join|].
  unfold addMessage. fold words. split; intros w Hw; rewrite fold_incr_lookup.
  - destruct Hw as [Hurl Hin].
    apply urlRegex_found_iff in Hurl. rewrite Hurl.
    apply occurrences_pos in Hin.
    assert ((occurrences w words =? 0) = false) as -> by (apply Z.eqb_neq; lia).
    done.
  - destruct (FindStringSubmatch_found urlRegex w) eqn:Hf; [|done].
    destruct (occurrences w words =? 0) eqn:E; [done|].
    exfalso. apply Hw. split; [by apply urlRegex_found_iff|].
    apply occurrences_pos. apply Z.eqb_neq in E. unfold occurrences in *. lia.
Qed.

(** *** What the tracker holds after a run of messages *)

Lemma fold_left_filter {A B} (p : B → bool) (f : A → B → A) l : ∀ a,
  fold_left (λ a x, if p x then f a x else a) l a = fold_left f (List.filter p l) a.
Proof.
  induction l as [|x l IH]; intros a; simpl; [done|].
  destruct (p x); simpl; apply IH.
Qed.

Lemma addMessage_url_words m u :
  addMessage m u = fold_left (λ u w, incr w u) (url_words m) u.
Proof. unfold addMessage, url_words. apply fold_left_filter. Qed.

Lemma record_all_recorded msgs : ∀ u,
  record_all msgs u = fold_left (λ u w, incr w u) (recorded msgs) u.
Proof.
  unfold record_all, recorded.
  induction msgs as [|m msgs IH]; intros u; simpl; [done|].
  by rewrite fold_left_app, IH, addMessage_url_words.
Qed.

Lemma record_all_lookup msgs w :
  record_all msgs NewURLs !! w =
  if occurrences w (recorded msgs) =? 0 then None
  else Some (wrap (occurrences w (recorded msgs))).
Proof.
  rewrite record_all_recorded.
  pose proof (fold_incr_lookup (λ _, true) (recorded msgs) NewURLs w) as Hl.
  cbn beta iota in Hl. rewrite Hl. unfold NewURLs. rewrite lookup_empty.
  destruct (occurrences w (recorded msgs) =? 0); done.
Qed.

Lemma record_all_lookup_Some msgs w c :
  record_all msgs NewURLs !! w = Some c ↔
  In w (recorded msgs) ∧ c = wrap (occurrences w (recorded msgs)).
Proof.
  rewrite record_all_lookup, occurrences_pos.
  destruct (occurrences w (recorded msgs) =? 0) eqn:E.
  - apply Z.eqb_eq in E. split; [done|]. lia.
  - apply Z.eqb_neq in E. unfold occurrences in *. split.
    + intros [= <-]. split; [lia|done].
    + intros [_ ->]. done.
Qed.

(** The tracker has one key for each distinct word it counted. *)
Lemma size_record_all msgs :
  size (record_all msgs NewURLs) = length (remove_dups (recorded msgs)).
Proof.
  rewrite <- (size_dom (D := gset string)).
  rewrite <- (size_list_to_set (C := gset string)) by apply NoDup_remove_dups.
  f_equal. apply set_eq. intros w.
  rewrite elem_of_dom, elem_of_list_to_set, elem_of_remove_dups, list_elem_of_In.
  unfold is_Some. split.
  - intros [c Hc]. by apply record_all_lookup_Some in Hc as [? _].
  - intros Hin. eexists. apply record_all_lookup_Some. eauto.
Qed.

(** *** The slice that [TopURLs] builds *)

Section top.
Context `{GoRuntime}.

Lemma fold_append l : ∀ list : slice TopURL,
  let r := fold_left (λ list '(url, count), append list (mkTopURL url count)) l list in
  elems r = elems list ++ map entry l ∧
  ((length (elems list) ≤ cap list)%nat → (length (elems r) ≤ cap r)%nat).
Proof.
  induction l as [|[url count] l IH]; intros list; simpl.
  - by rewrite (right_id_L [] (++)).
  - destruct (IH (append list (mkTopURL url count))) as [He Hc].
    split.
    + rewrite He. simpl. by rewrite <- (assoc_L (++)).
    + intros Hle. apply Hc. simpl. rewrite length_app. simpl.
      destruct (length (elems list) <? cap list)%nat eqn:E.
      * apply Nat.ltb_lt in E. lia.
      * apply Nat.ltb_ge in E. pose proof (growslice_gt (cap list)). lia.
Qed.

Lemma byCount_Less_asym x y : byCount_Less x y = true → byCount_Less y x = false.
Proof. unfold byCount_Less. lia. Qed.

Lemma byCount_Less_negtrans x y z :
  byCount_Less x y = false → byCount_Less y z = false → byCount_Less x z = false.
Proof. unfold byCount_Less. lia. Qed.

Lemma StronglySorted_weaken {A} (R R' : A → A → Prop) l :
  (∀ a b, R a b → R' a b) → StronglySorted R l → StronglySorted R' l.
Proof.
  intros HR. induction 1 as [|a l Hs IH Hall]; constructor; [done|].
  eapply Forall_impl; eauto.
Qed.

Lemma sorted_entries_perm u : sorted_entries u ≡ₚ map entry (map_to_list u).
Proof.
  unfold sorted_entries. rewrite sort_Sort_perm.
  apply Permutation_map, map_range_perm.
Qed.

Lemma sorted_entries_sorted u :
  StronglySorted (λ a b, Count b ≤ Count a) (sorted_entries u).
Proof.
  unfold sorted_entries.
  eapply StronglySorted_weaken;
    [|apply sort_Sort_sorted; [apply byCount_Less_asym|apply byCount_Less_negtrans]].
  intros a b. unfold byCount_Less. simpl. lia.
Qed.

Lemma length_sorted_entries u : length (sorted_entries u) = size u.
Proof.
  rewrite (Permutation_length (sorted_entries_perm u)), length_map.
  apply length_map_to_list.
Qed.

Lemma elem_of_sorted_entries u e :
  e ∈ sorted_entries u ↔ u !! URL e = Some (Count e).
Proof.
  rewrite (sorted_entries_perm u), list_elem_of_fmap. split.
  - intros ([k v] & -> & Hin). simpl. by apply elem_of_map_to_list.
  - intros Hl. exists (URL e, Count e). split; [by destruct e|].
    by apply elem_of_map_to_list.
Qed.

Lemma NoDup_sorted_entries u : NoDup (map URL (sorted_entries u)).
Proof.
  rewrite (sorted_entries_perm u).
  rewrite map_map. simpl. apply (NoDup_fst_map_to_list u).
Qed.

(** [TopURLs] on a tracker that is not empty: the slice of the sorted
    entries, cut at [n], with a capacity that is at least the length. *)
Lemma TopURLs_nonempty (u : urls) n :
  size u ≠ 0%nat →
  ∃ c, (size u ≤ c)%nat ∧ TopURLs u n = slice_upto (mkSlice (sorted_entries u) c) n.
Proof.
  intros Hne. unfold TopURLs.
  assert ((size u =? 0)%nat = false) as -> by (by apply Nat.eqb_neq).
  destruct (fold_append (map_range u) make_slice) as [He Hc].
  simpl in He. rewrite He.
  eexists. split; [|reflexivity].
  specialize (Hc (Nat.le_0_l _)). rewrite He, length_map in Hc.
  rewrite (Permutation_length (map_range_perm _ _ u)), length_map_to_list in Hc.
  exact Hc.
Qed.

Lemma slice_upto_within {A} (s : slice A) n :
  0 ≤ n ≤ Z.of_nat (length (elems s)) → (length (elems s) ≤ cap s)%nat →
  slice_upto s n = Ok (map Some (take (Z.to_nat n) (elems s))).
Proof.
  intros Hn Hc. unfold slice_upto.
  assert ((n <? 0) || (Z.of_nat (cap s) <? n) = false) as ->.
  { apply orb_false_iff. split; [apply Z.ltb_ge|apply Z.ltb_ge]; lia. }
  f_equal. rewrite take_app_le by (rewrite length_map; lia).
  symmetry. apply (fmap_take Some).
Qed.

Lemma slice_upto_beyond {A} (s : slice A) n :
  n < 0 ∨ Z.of_nat (cap s) < n → slice_upto s n = Panic.
Proof.
  intros Hn. unfold slice_upto.
  assert ((n <? 0) || (Z.of_nat (cap s) <? n) = true) as ->; [|done].
  apply orb_true_iff. destruct Hn; [left|right]; apply Z.ltb_lt; lia.
Qed.

(** Above the number of tokens there is no clamping, whatever the
    runtime: the call panics, or the list it returns is longer than the
    list of all entries (the cells beyond them are nil). *)
Lemma TopURLs_never_clamps (u : urls) (n : Z) :
  size u ≠ 0%nat → Z.of_nat (size u) < n →
  TopURLs u n = Panic ∨
  ∃ l, TopURLs u n = Ok l ∧ (size u < length l)%nat ∧ l !! size u = Some None.
Proof.
  intros Hne Hn. destruct (TopURLs_nonempty u n Hne) as (c & Hc & ->).
  pose proof (length_sorted_entries u) as Hlen.
  destruct (decide (Z.of_nat c < n)) as [Hbig|Hsmall].
  - left. apply slice_upto_beyond. simpl. by right.
  - right. unfold slice_upto. simpl.
    assert ((n <? 0) || (Z.of_nat c <? n) = false) as ->.
    { apply orb_false_iff. split; apply Z.ltb_ge; lia. }
    eexists. split; [reflexivity|].
    rewrite length_take, length_app, length_map, length_replicate, Hlen.
    split; [lia|].
    rewrite lookup_take_lt by lia.
    rewrite lookup_app_r by (rewrite length_map; lia).
    rewrite length_map, Hlen, Nat.sub_diag.
    apply lookup_replicate. split; [done|lia].
Qed.

(** A negative [n] panics. *)
Lemma TopURLs_negative (u : urls) (n : Z) :
  size u ≠ 0%nat → n < 0 → TopURLs u n = Panic.
Proof.
  intros Hne Hn. destruct (TopURLs_nonempty u n Hne) as (c & Hc & ->).
  apply slice_upto_beyond. by left.
Qed.

(** C3, amended: after any run of messages, for every [n] from 0 to the
    number of distinct counted words, [TopURLs(n)] returns [n] entries, no
    word twice, in order of count, largest first, where equal counts may
    stand next to each other; each count is the number of times the word
    was counted, as a [uint] (modulo 2^64), and no word left out has a
    larger count than a word returned. *)
Theorem TopURLs_sorted_counts (msgs : list Message) (n : Z) :
  0 ≤ n ≤ Z.of_nat (length (remove_dups (recorded msgs))) →
  ∃ top : list TopURL,
    TopURLs (record_all msgs NewURLs) n = Ok (map Some top) ∧
    Z.of_nat (length top) = n ∧
    StronglySorted (λ a b, Count b ≤ Count a) top ∧
    NoDup (map URL top) ∧
    (∀ e, In e top →
          In (URL e) (recorded msgs) ∧
          Count e = wrap (occurrences (URL e) (recorded msgs))) ∧
    (∀ w e, In w (recorded msgs) → ¬ In w (map URL top) → In e top →
            wrap (occurrences w (recorded msgs)) ≤ Count e).
Proof.
  intros Hn. rewrite <- size_record_all in Hn.
  set (u := record_all msgs NewURLs) in *.
  destruct (decide (size u = 0%nat)) as [Hz|Hnz].
  - exists []. unfold TopURLs. rewrite Hz. simpl.
    split; [done|]. split; [lia|]. split; [constructor|]. split; [constructor|].
    split; [done|]. done.
  - destruct (TopURLs_nonempty u n Hnz) as (c & Hc & ->).
    pose proof (length_sorted_entries u) as Hlen.
    rewrite slice_upto_within by (simpl; lia).
    simpl. set (k := Z.to_nat n).
    exists (take k (sorted_entries u)).
    pose proof (sorted_entries_sorted u) as Hsorted.
    rewrite <- (take_drop k (sorted_entries u)) in Hsorted.
    split; [done|]. split; [rewrite length_take; lia|].
    split; [by apply StronglySorted_app_1_l in Hsorted|].
    split.
    { pose proof (NoDup_sorted_entries u) as Hnd.
      rewrite <- (take_drop k (sorted_entries u)), map_app in Hnd.
      by apply NoDup_app in Hnd as [? _]. }
    split.
    + intros e He. apply list_elem_of_In, subseteq_take in He.
      apply elem_of_sorted_entries in He.
      by apply record_all_lookup_Some in He.
    + intros w e Hw Hnot He.
      assert (u !! w = Some (wrap (occurrences w (recorded msgs)))) as Hl
        by (apply record_all_lookup_Some; auto).
      set (x := mkTopURL w (wrap (occurrences w (recorded msgs)))).
      assert (x ∈ sorted_entries u) as Hx by (by apply elem_of_sorted_entries).
      rewrite <- (take_drop k (sorted_entries u)) in Hx.
      apply elem_of_app in Hx as [Hx|Hx].
      * exfalso. apply Hnot. apply list_elem_of_In in Hx.
        by apply (in_map URL) in Hx.
      * apply list_elem_of_In in He.
        apply (StronglySorted_app_1_elem_of _ _ _ e x Hsorted He Hx).
Qed.

End top.

End UrlsProps.

(** ** The tracker at work *)

Module UrlsExamples.
Import Regexp RegexpProps Urls UrlRegexProps UrlsProps.

Definition tab : ascii := ascii_of_nat 9.

(** C1: with one word counted, [TopURLs(2)] does not return that one
    entry: the slice expression is out of range and the call panics; with
    three words counted, [TopURLs(4)] returns a fourth entry that is nil.
    An empty tracker does return its (empty) list for every [n]. *)
Theorem TopURLs_beyond_count :
  TopURLs (H := go_runtime) (record_all [text_message "a.bc"] NewURLs) 2 = Panic ∧
  TopURLs (H := go_runtime)
    (record_all [text_message "a.bc b.cd c.de a.bc b.cd a.bc"] NewURLs) 4
    = Ok [Some (mkTopURL "a.bc" 3); Some (mkTopURL "b.cd" 2);
          Some (mkTopURL "c.de" 1); None] ∧
  TopURLs (H := go_runtime) NewURLs 2 = Ok [].
Proof. split; [|split]; vm_compute; reflexivity. Qed.

(** C3 as stated fails: two words counted once each come back with equal
    counts, not in strictly descending order. *)
Lemma TopURLs_equal_counts :
  ∃ a b,
    TopURLs (H := go_runtime) (record_all [text_message "a.bc b.cd"] NewURLs) 2
      = Ok [Some a; Some b] ∧
    ¬ (Count b < Count a).
Proof.
  eexists _, _. split; [vm_compute; reflexivity|simpl; lia].
Qed.

Lemma TopURLs_sorted_counts_witness :
  ∃ top : list TopURL,
    TopURLs (H := go_runtime)
      (record_all [text_message "a.bc see b.cd"; text_message "a.bc"] NewURLs) 2
      = Ok (map Some top) ∧
    Z.of_nat (length top) = 2 ∧
    StronglySorted (λ a b, Count b ≤ Count a) top ∧
    NoDup (map URL top) ∧
    (∀ e, In e top →
          In (URL e) (recorded [text_message "a.bc see b.cd"; text_message "a.bc"]) ∧
          Count e = wrap (occurrences (URL e)
                            (recorded [text_message "a.bc see b.cd"; text_message "a.bc"]))) ∧
    (∀ w e, In w (recorded [text_message "a.bc see b.cd"; text_message "a.bc"]) →
            ¬ In w (map URL top) → In e top →
            wrap (occurrences w (recorded [text_message "a.bc see b.cd"; text_message "a.bc"]))
            ≤ Count e).
Proof.
  apply (@TopURLs_sorted_counts go_runtime). vm_compute. split; discriminate.
Defined.

(** C7: the tracker does not count exactly the words that start with a
    scheme or are a bare domain.  In the pattern the alternation binds
    loosest, so the anchor at the start holds for the scheme branch only
    and the anchor at the end for the domain branch only: the mail
    address bob@example.com, which is neither, is counted because it
    ends with a bare domain.  And the text is cut at the space character
    only, not at white space as [strings.Fields] cuts it for the
    counters: of a bare domain and a URL set apart by a tab neither is
    counted. *)
Lemma addMessage_not_as_specified :
  (¬ spec_url_word "bob@example.com" ∧
   addMessage (text_message "bob@example.com") NewURLs !! "bob@example.com" = Some 1) ∧
  (let text := "a.bc" +:+ String tab "http://x.y" in
   ascii_Fields text = ["a.bc"; "http://x.y"] ∧
   spec_url_word "a.bc" ∧ spec_url_word "http://x.y" ∧
   addMessage (text_message text) NewURLs = NewURLs).
Proof.
  split; [split|].
  - intros [Hp|[Hp|Hd]]; [discriminate Hp|discriminate Hp|].
    apply bare_domain_iff in Hd. vm_compute in Hd. tauto.
  - vm_compute. reflexivity.
  - split; [vm_compute; reflexivity|].
    split; [|split].
    + right; right. apply bare_domain_iff. vm_compute. tauto.
    + left. reflexivity.
    + vm_compute. reflexivity.
Qed.

End UrlsExamples.

Module StatsProps.
Import StatsDB Counters.

(** Unfolding the plumbing of a method. *)
Ltac run_method :=
  unfold bind, gets, modify, ret, update_Network, update_Channel, update_User,
         new_Network, new_Channel, new_User in *; simpl in *.

Lemma map_alter_kept {A B} (g : A → B) (f : A → A) (l : list A) (i : nat) :
  (∀ x, g (f x) = g x) → map g (alter f i l) = map g l.
Proof.
  intros Hg. revert i. induction l as [|x l IH]; intros [|i]; simpl; [done..| |].
  - f_equal. apply Hg.
  - f_equal. apply IH.
Qed.

Section props.
Context `{GoStrings} `{GoRuntime}.

(** *** What a method leaves alone *)

(** The network index, the table of networks, the network id counter,
    and the name and id of every network are the same in both states. *)
Definition networks_kept (s s' : Stats) : Prop :=
  networkByName s' = networkByName s ∧
  Networks s' = Networks s ∧
  NetworkIDCount s' = NetworkIDCount s ∧
  map Network_ID (Network_objs s') = map Network_ID (Network_objs s) ∧
  map Network_Name (Network_objs s') = map Network_Name (Network_objs s).

Lemma networks_kept_refl s : networks_kept s s.
Proof. by repeat split. Qed.

Lemma networks_kept_trans s1 s2 s3 :
  networks_kept s1 s2 → networks_kept s2 s3 → networks_kept s1 s3.
Proof.
  intros (?&?&?&?&?) (?&?&?&?&?). repeat split; congruence.
Qed.

Ltac kept_by_alter :=
  repeat split; simpl; try done; by apply map_alter_kept.

Lemma getUser_networks_kept n host s : networks_kept s (snd (getUser n host s)).
Proof.
  unfold getUser, addUser. run_method.
  destruct (Network_objs s !! n ≫= _) as [u|]; simpl; [apply networks_kept_refl|].
  kept_by_alter.
Qed.

Lemma getChannel_networks_kept n name s : networks_kept s (snd (getChannel n name s)).
Proof.
  unfold getChannel, addChannel. run_method.
  destruct (Network_objs s !! n ≫= _) as [c|]; simpl; [apply networks_kept_refl|].
  kept_by_alter.
Qed.

Lemma getChannelUser_networks_kept u channel s :
  networks_kept s (snd (getChannelUser u channel s)).
Proof.
  unfold getChannelUser. run_method.
  destruct (User_objs s !! u ≫= _) as [cu|]; simpl; by repeat split.
Qed.

Lemma addMessage_networks_kept k n c u cu d m s :
  networks_kept s (snd (addMessage k n c u cu d m s)).
Proof.
  unfold addMessage. run_method.
  destruct c as [c|]; simpl.
  - destruct k, cu as [[cu key]|]; simpl; kept_by_alter.
  - kept_by_alter.
Qed.


(** [AddMessage], step by step. *)
Lemma AddMessage_message_steps k net ch host d m s :
  AddMessage_message k net ch host d m s =
  let (n, s1) := getNetwork net s in
  let (u, s2) := getUser n host s1 in
  if String.eqb ch ""
  then addMessage k n None u None d m s2
  else
    let (c, s3) := getChannel n ch s2 in
    let (cu, s4) := getChannelUser u ch s3 in
    addMessage k n (Some c) u (Some cu) d m s4.
Proof.
  unfold AddMessage_message, bind.
  destruct (getNetwork net s) as [n s1].
  destruct (getUser n host s1) as [u s2].
  destruct (String.eqb ch ""); simpl; [done|].
  destruct (getChannel n ch s2) as [c s3].
  destruct (getChannelUser u ch s3) as [cu s4]. done.
Qed.

Lemma AddMessage_networks_kept k net ch host d m s :
  networks_kept (snd (getNetwork net s)) (AddMessage k net ch host d m s).
Proof.
  unfold AddMessage. rewrite AddMessage_message_steps.
  destruct (getNetwork net s) as [n s1]. simpl.
  pose proof (getUser_networks_kept n host s1) as Hu.
  destruct (getUser n host s1) as [u s2]. simpl in Hu.
  destruct (String.eqb ch "").
  - eapply networks_kept_trans; [exact Hu|apply addMessage_networks_kept].
  - pose proof (getChannel_networks_kept n ch s2) as Hc.
    destruct (getChannel n ch s2) as [c s3]. simpl in Hc.
    pose proof (getChannelUser_networks_kept u ch s3) as Hcu.
    destruct (getChannelUser u ch s3) as [cu s4]. simpl in Hcu.
    eapply networks_kept_trans; [exact Hu|].
    eapply networks_kept_trans; [exact Hc|].
    eapply networks_kept_trans; [exact Hcu|apply addMessage_networks_kept].
Qed.

(** *** Resolving a network *)

Lemma getNetwork_found name s n :
  networkByName s !! ToLower name = Some n → getNetwork name s = (n, s).
Proof. intros Hl. unfold getNetwork. run_method. by rewrite Hl. Qed.

(** The state after [addNetwork]. *)
Definition with_new_Network (name : string) (s : Stats) : Stats :=
  let id := NetworkIDCount s in
  let n := length (Network_objs s) in
  mkStats (Network_objs s ++ [mkNetwork name id [] [] [] Urls.NewURLs Urls.NewURLs ∅ ∅])
          (Channel_objs s) (User_objs s) (Channels s) (<[id := n]> (Networks s)) (Users s)
          (<[ToLower name := n]> (networkByName s))
          (wrap (id + 1)) (MessageIDCount s) (ChannelIDCount s) (UserIDCount s).

Lemma getNetwork_new name s :
  networkByName s !! ToLower name = None →
  getNetwork name s = (length (Network_objs s), with_new_Network name s).
Proof. intros Hl. unfold getNetwork, addNetwork. run_method. by rewrite Hl. Qed.

Lemma getNetwork_indexed name s :
  networkByName (snd (getNetwork name s)) !! ToLower name = Some (fst (getNetwork name s)).
Proof.
  destruct (networkByName s !! ToLower name) as [n|] eqn:Hl.
  - by rewrite (getNetwork_found _ _ _ Hl).
  - rewrite (getNetwork_new _ _ Hl). unfold with_new_Network. simpl.
    apply lookup_insert_eq.
Qed.

Lemma Network_ID_at_kept s s' n :
  map Network_ID (Network_objs s') = map Network_ID (Network_objs s) →
  Network_ID_at n s' = Network_ID_at n s.
Proof.
  intros Hmap. unfold Network_ID_at.
  apply (f_equal (λ l, l !! n)) in Hmap.
  change (map Network_ID ?l) with (Network_ID <$> l) in Hmap.
  rewrite !list_lookup_fmap in Hmap.
  destruct (Network_objs s' !! n), (Network_objs s !! n); simpl in *; congruence.
Qed.

Lemma getNetwork_leads_to_Network name s :
  (∀ key a, networkByName s !! key = Some a → is_Some (Network_objs s !! a)) →
  is_Some (Network_objs (snd (getNetwork name s)) !! fst (getNetwork name s)).
Proof.
  intros Hvalid.
  destruct (networkByName s !! ToLower name) as [n|] eqn:Hl.
  - rewrite (getNetwork_found _ _ _ Hl). simpl. by eapply Hvalid.
  - rewrite (getNetwork_new _ _ Hl). unfold with_new_Network. simpl.
    rewrite lookup_app_r, Nat.sub_diag by done. simpl. eauto.
Qed.

Lemma lookup_map_kept {A B} (f : A → B) (l l' : list A) (i : nat) (x : A) :
  map f l' = map f l → l !! i = Some x → ∃ x', l' !! i = Some x' ∧ f x' = f x.
Proof.
  intros Hmap Hx. apply (f_equal (λ l, l !! i)) in Hmap.
  change (map f ?l) with (f <$> l) in Hmap.
  rewrite !list_lookup_fmap, Hx in Hmap.
  destruct (l' !! i) as [x'|]; simpl in Hmap; [|done].
  exists x'. split; [done|congruence].
Qed.

(** C5: from a state whose name index leads to Network objects only,
    when two names differ in letter case only (their [ToLower] is the
    same), the first [AddMessage] resolves the name to a Network object
    (a new one, with the name as written and the next network id, when
    the index has no entry for it), and a second [AddMessage] under the
    other spelling resolves to this same object, which has kept its id
    and its name; the second call creates no Network, and leaves the
    network id counter, the table of networks and the name index as they
    were. *)
Theorem getNetwork_ignores_case (s : Stats) (name1 name2 : string)
    (k1 k2 : MsgKind) (ch1 ch2 host1 host2 : string) (d1 d2 : Z) (m1 m2 : string) :
  (∀ key a, networkByName s !! key = Some a → is_Some (Network_objs s !! a)) →
  ToLower name1 = ToLower name2 →
  let n1 := fst (getNetwork name1 s) in
  let s0 := snd (getNetwork name1 s) in
  let s1 := AddMessage k1 name1 ch1 host1 d1 m1 s in
  let s2 := AddMessage k2 name2 ch2 host2 d2 m2 s1 in
  getNetwork name2 s1 = (n1, s1) ∧
  (∃ net0 net1 net2,
     Network_objs s0 !! n1 = Some net0 ∧
     Network_objs s1 !! n1 = Some net1 ∧
     Network_objs s2 !! n1 = Some net2 ∧
     Network_ID net1 = Network_ID net0 ∧ Network_ID net2 = Network_ID net0 ∧
     Network_Name net1 = Network_Name net0 ∧ Network_Name net2 = Network_Name net0 ∧
     (networkByName s !! ToLower name1 = None →
      Network_ID net0 = NetworkIDCount s ∧ Network_Name net0 = name1 ∧
      NetworkIDCount s1 = wrap (NetworkIDCount s + 1) ∧
      length (Network_objs s1) = S (length (Network_objs s)))) ∧
  Network_ID_at n1 s1 = Network_ID_at n1 s0 ∧
  Network_ID_at n1 s2 = Network_ID_at n1 s1 ∧
  length (Network_objs s2) = length (Network_objs s1) ∧
  NetworkIDCount s2 = NetworkIDCount s1 ∧
  Networks s2 = Networks s1 ∧
  networkByName s2 = networkByName s1.
Proof.
  intros Hvalid Hcase n1 s0 s1 s2.
  pose proof (AddMessage_networks_kept k1 name1 ch1 host1 d1 m1 s)
    as (Hidx1 & _ & Hcount1 & Hid1 & Hnm1).
  fold s0 s1 in Hidx1, Hcount1, Hid1, Hnm1.
  assert (getNetwork name2 s1 = (n1, s1)) as Hsame.
  { apply getNetwork_found. rewrite Hidx1, <- Hcase. apply getNetwork_indexed. }
  pose proof (AddMessage_networks_kept k2 name2 ch2 host2 d2 m2 s1)
    as (Hidx2 & Htab & Hcount & Hid2 & Hnm2).
  fold s2 in Hidx2, Htab, Hcount, Hid2, Hnm2. rewrite Hsame in *. simpl in *.
  destruct (getNetwork_leads_to_Network name1 s Hvalid) as [net0 Hnet0].
  fold n1 s0 in Hnet0.
  destruct (lookup_map_kept Network_ID _ _ _ _ Hid1 Hnet0) as (net1 & Hnet1 & Hi1).
  destruct (lookup_map_kept Network_Name _ _ _ _ Hnm1 Hnet0) as (net1' & Hnet1' & Hn1).
  assert (net1' = net1) as -> by congruence.
  destruct (lookup_map_kept Network_ID _ _ _ _ Hid2 Hnet1) as (net2 & Hnet2 & Hi2).
  destruct (lookup_map_kept Network_Name _ _ _ _ Hnm2 Hnet1) as (net2' & Hnet2' & Hn2).
  assert (net2' = net2) as -> by congruence.
  split; [done|]. split.
  { exists net0, net1, net2. repeat (split; [congruence|]).
    intros Hnone. unfold n1, s0 in Hnet0. unfold s0 in Hcount1, Hid1.
    rewrite (getNetwork_new _ _ Hnone) in Hnet0, Hcount1, Hid1.
    unfold with_new_Network in Hnet0, Hcount1, Hid1. simpl in Hnet0, Hcount1, Hid1.
    rewrite lookup_app_r, Nat.sub_diag in Hnet0 by done. injection Hnet0 as <-.
    simpl. split; [done|]. split; [done|]. split; [done|].
    apply (f_equal length) in Hid1. rewrite !length_map, length_app in Hid1.
    simpl in Hid1. lia. }
  split; [by apply Network_ID_at_kept|].
  split; [by apply Network_ID_at_kept|].
  split; [|done].
  apply (f_equal length) in Hid2. by rewrite !length_map in Hid2.
Qed.

(** *** The name index after a run of calls *)

(** Every key of the index is the lower-case form of a name that was
    given, it leads to a network of that name, and every name given has
    its key. *)
Definition index_inv (names : list string) (s : Stats) : Prop :=
  (∀ key a, networkByName s !! key = Some a →
     (∃ name, In name names ∧ key = ToLower name) ∧
     (∃ nm, (Network_Name <$> Network_objs s) !! a = Some nm ∧ ToLower nm = key)) ∧
  (∀ name, In name names → is_Some (networkByName s !! ToLower name)).

Lemma index_inv_kept names s s' :
  networks_kept s s' → index_inv names s → index_inv names s'.
Proof.
  intros (Hidx & _ & _ & _ & Hnames) [Hkeys Hall].
  change (map Network_Name ?l) with (Network_Name <$> l) in Hnames.
  unfold index_inv. rewrite Hidx, Hnames. done.
Qed.

Lemma index_inv_getNetwork names net s :
  index_inv names s → index_inv (names ++ [net]) (snd (getNetwork net s)).
Proof.
  intros [Hkeys Hall].
  destruct (networkByName s !! ToLower net) as [n|] eqn:Hl.
  - rewrite (getNetwork_found _ _ _ Hl). simpl. split.
    + intros key a Hka. destruct (Hkeys key a Hka) as [(name & Hin & ->) Hnm].
      split; [|done]. exists name. split; [|done]. apply in_or_app. by left.
    + intros name [Hin|[<-|[]]]%in_app_or; [by apply Hall|]. by rewrite Hl.
  - rewrite (getNetwork_new _ _ Hl). unfold with_new_Network. split; simpl.
    + intros key a Hka. destruct (decide (ToLower net = key)) as [<-|Hne].
      * rewrite lookup_insert_eq in Hka. injection Hka as <-. split.
        -- exists net. split; [|done]. apply in_or_app. right. by left.
        -- exists net. split; [|done].
           rewrite fmap_app. simpl.
           rewrite lookup_app_r by (by rewrite length_fmap).
           by rewrite length_fmap, Nat.sub_diag.
      * rewrite lookup_insert_ne in Hka by done.
        destruct (Hkeys key a Hka) as [(name & Hin & ->) (nm & Hnm & Hlow)].
        split.
        -- exists name. split; [|done]. apply in_or_app. by left.
        -- exists nm. split; [|done]. rewrite fmap_app. by apply lookup_app_l_Some.
    + intros name [Hin|[<-|[]]]%in_app_or.
      * destruct (decide (ToLower net = ToLower name)) as [->|Hne].
        -- rewrite lookup_insert_eq. eauto.
        -- rewrite lookup_insert_ne by done. by apply Hall.
      * rewrite lookup_insert_eq. eauto.
Qed.

Lemma index_inv_AddMessages calls : ∀ names s,
  index_inv names s →
  index_inv (names ++ map call_network calls) (snd (AddMessages calls s)).
Proof.
  induction calls as [|c calls IH]; intros names s Hinv; simpl.
  - by rewrite (right_id_L [] (++)).
  - unfold bind. destruct (AddMessage_call c s) as [m s1] eqn:Hc.
    assert (index_inv (names ++ [call_network c]) s1) as Hinv1.
    { eapply index_inv_kept; [|apply index_inv_getNetwork, Hinv].
      pose proof (AddMessage_networks_kept (call_kind c) (call_network c) (call_channel c)
                    (call_hostmask c) (call_date c) (call_message c) s) as Hk.
      unfold AddMessage in Hk. unfold AddMessage_call in Hc. by rewrite Hc in Hk. }
    specialize (IH _ _ Hinv1).
    destruct (AddMessages calls s1) as [ms s2]. simpl in *.
    by rewrite <- (assoc_L (++)) in IH.
Qed.

Lemma index_inv_emptyStats : index_inv [] emptyStats.
Proof. split; [|done]. intros key a Hka. simpl in Hka. by rewrite lookup_empty in Hka. Qed.

(** C10: after any run of [AddMessage] calls on a new Stats,
    [GetNetwork] reads the name index with the name as it is given, and
    the keys of the index are the lower-case forms of the names given to
    [AddMessage]; so for a name that is not its own lower-case form,
    [GetNetwork] finds the network under the lower-case form and returns
    nil for the name itself. *)
Theorem GetNetwork_by_lowercase_name (calls : list Call) (c : Call) :
  In c calls →
  ToLower (call_network c) ≠ call_network c →
  let s := snd (AddMessages calls emptyStats) in
  (∀ key, GetNetwork key s = networkByName s !! key) ∧
  (∀ key, is_Some (networkByName s !! key) ↔
          ∃ c', In c' calls ∧ key = ToLower (call_network c')) ∧
  (∃ a n, GetNetwork (ToLower (call_network c)) s = Some a ∧
          Network_objs s !! a = Some n ∧
          ToLower (Network_Name n) = ToLower (call_network c)) ∧
  GetNetwork (call_network c) s = None.
Proof.
  intros Hin Hmixed s.
  destruct (index_inv_AddMessages calls [] emptyStats index_inv_emptyStats) as [Hkeys Hall].
  fold s in Hkeys, Hall. simpl in Hkeys, Hall.
  assert (∀ key, is_Some (networkByName s !! key) ↔
                 ∃ c', In c' calls ∧ key = ToLower (call_network c')) as Hdom.
  { intros key. split.
    - intros [a Ha]. destruct (Hkeys key a Ha) as [(name & Hname & ->) _].
      apply in_map_iff in Hname as (c' & <- & Hc'). eauto.
    - intros (c' & Hc' & ->). apply Hall, in_map_iff. eauto. }
  split; [done|]. split; [done|]. split.
  - destruct (proj2 (Hdom (ToLower (call_network c)))) as [a Ha]; [eauto|].
    destruct (Hkeys _ a Ha) as [_ (nm & Hnm & Hlow)].
    rewrite list_lookup_fmap in Hnm.
    destruct (Network_objs s !! a) as [n|] eqn:Hn; [|done].
    injection Hnm as <-. exists a, n. done.
  - unfold GetNetwork.
    destruct (networkByName s !! call_network c) as [a|] eqn:Ha; [|done].
    exfalso. destruct (proj1 (Hdom (call_network c))) as (c' & _ & Hc'); [eauto|].
    apply Hmixed. rewrite Hc'. apply ToLower_idem.
Qed.

(** *** Ids *)

(** The ids given out so far for one kind of entity, in the order of
    creation (which is the order of the store), and the counter. *)
Record idview : Type := mkView {
  ids : list Z;
  counter : Z
}.

Definition network_ids (s : Stats) : idview :=
  mkView (map Network_ID (Network_objs s)) (NetworkIDCount s).
Definition channel_ids (s : Stats) : idview :=
  mkView (map Channel_ID (Channel_objs s)) (ChannelIDCount s).
Definition user_ids (s : Stats) : idview :=
  mkView (map User_ID (User_objs s)) (UserIDCount s).

(** Nothing happens, or one entity is created with the counter as its
    id. *)
Definition id_step (v v' : idview) : Prop :=
  v' = v ∨ v' = mkView (ids v ++ [counter v]) (wrap (counter v + 1)).

(** The i-th entity created has id [1 + i], as a [uint]. *)
Definition numbered (v : idview) : Prop :=
  (∀ i id, ids v !! i = Some id → id = wrap (1 + Z.of_nat i)) ∧
  counter v = wrap (1 + Z.of_nat (length (ids v))).

Lemma wrap_succ x : wrap (wrap x + 1) = wrap (x + 1).
Proof. unfold wrap. apply Zplus_mod_idemp_l. Qed.

Lemma id_step_numbered v v' : numbered v → id_step v v' → numbered v'.
Proof.
  intros [Hids Hc] [->| ->]; [done|]. split; simpl.
  - intros i id Hi. apply lookup_app_Some in Hi as [Hi|[Hlen Hi]]; [by apply Hids|].
    apply list_lookup_singleton_Some in Hi as [Hi <-].
    rewrite Hc. f_equal. lia.
  - rewrite Hc, wrap_succ, length_app. simpl. f_equal. lia.
Qed.

Lemma id_step_length v v' :
  id_step v v' → (length (ids v') ≤ S (length (ids v)))%nat.
Proof. intros [->| ->]; simpl; [lia|]. rewrite length_app. simpl. lia. Qed.

Lemma id_step_prefix v v' : id_step v v' → ids v `prefix_of` ids v'.
Proof. intros [->| ->]; simpl; [done|]. by apply prefix_app_r. Qed.

Lemma wrap_succ_inj i j :
  0 ≤ i < uint_modulus → 0 ≤ j < uint_modulus → wrap (1 + i) = wrap (1 + j) → i = j.
Proof.
  unfold wrap, uint_modulus, uint_bits. intros Hi Hj Heq.
  assert (∀ k, 0 ≤ k < 2 ^ 64 →
               (1 + k) mod 2 ^ 64 = if decide (k = 2 ^ 64 - 1) then 0 else 1 + k) as Hmod.
  { intros k Hk. case_decide as Hd.
    - rewrite Hd. reflexivity.
    - apply Z.mod_small. lia. }
  rewrite (Hmod i Hi), (Hmod j Hj) in Heq.
  repeat case_decide; lia.
Qed.

(** Numbered ids are distinct as long as the counter has not gone round. *)
Lemma numbered_NoDup v :
  numbered v → Z.of_nat (length (ids v)) ≤ uint_modulus → NoDup (ids v).
Proof.
  intros [Hids _] Hlen. apply NoDup_alt. intros i j id Hi Hj.
  pose proof (lookup_lt_Some _ _ _ Hi). pose proof (lookup_lt_Some _ _ _ Hj).
  apply Hids in Hi, Hj. subst id.
  apply wrap_succ_inj in Hj; lia.
Qed.

Ltac view_kept := unfold network_ids, channel_ids, user_ids; simpl;
  f_equal; by apply map_alter_kept.

Lemma getNetwork_ids name s :
  let s' := snd (getNetwork name s) in
  id_step (network_ids s) (network_ids s') ∧
  channel_ids s' = channel_ids s ∧ user_ids s' = user_ids s ∧
  MessageIDCount s' = MessageIDCount s.
Proof.
  destruct (networkByName s !! ToLower name) as [n|] eqn:Hl.
  - rewrite (getNetwork_found _ _ _ Hl). simpl. by repeat split; [left|..].
  - rewrite (getNetwork_new _ _ Hl). simpl. split; [right|done].
    unfold network_ids. simpl. by rewrite map_app.
Qed.

Lemma getUser_ids n host s :
  let s' := snd (getUser n host s) in
  network_ids s' = network_ids s ∧ channel_ids s' = channel_ids s ∧
  id_step (user_ids s) (user_ids s') ∧
  MessageIDCount s' = MessageIDCount s.
Proof.
  unfold getUser, addUser. run_method.
  destruct (Network_objs s !! n ≫= _) as [u|]; simpl; [by repeat split; [left|..]|].
  split; [view_kept|]. split; [done|]. split; [right|done].
  unfold user_ids. simpl. by rewrite map_app.
Qed.

Lemma getChannel_ids n name s :
  let s' := snd (getChannel n name s) in
  network_ids s' = network_ids s ∧ id_step (channel_ids s) (channel_ids s') ∧
  user_ids s' = user_ids s ∧
  MessageIDCount s' = MessageIDCount s.
Proof.
  unfold getChannel, addChannel. run_method.
  destruct (Network_objs s !! n ≫= _) as [c|]; simpl; [by repeat split; [left|..]|].
  split; [view_kept|]. split; [right|done].
  unfold channel_ids. simpl. by rewrite map_app.
Qed.

Lemma getChannelUser_ids u channel s :
  let s' := snd (getChannelUser u channel s) in
  network_ids s' = network_ids s ∧ channel_ids s' = channel_ids s ∧
  user_ids s' = user_ids s ∧
  MessageIDCount s' = MessageIDCount s.
Proof.
  unfold getChannelUser. run_method.
  destruct (User_objs s !! u ≫= _) as [cu|]; simpl; [done|].
  split; [done|]. split; [done|]. split; [view_kept|done].
Qed.

Lemma addMessage_ids k n c u cu d m s :
  let r := addMessage k n c u cu d m s in
  network_ids (snd r) = network_ids s ∧ channel_ids (snd r) = channel_ids s ∧
  user_ids (snd r) = user_ids s ∧
  MessageIDCount (snd r) = wrap (MessageIDCount s + 1) ∧
  Message_ID (fst r) = MessageIDCount s.
Proof.
  unfold addMessage. run_method.
  destruct c as [c|]; simpl.
  - destruct k, cu as [[cu key]|]; simpl;
      (split; [view_kept|]; split; [|split; [|done]]);
      unfold channel_ids, user_ids; simpl; f_equal;
      rewrite ?map_alter_kept; done.
  - split; [view_kept|]. split; [done|]. split; [view_kept|done].
Qed.

Lemma id_step_after v v1 v2 : v1 = v → id_step v1 v2 → id_step v v2.
Proof. by intros ->. Qed.

(** One call creates at most one entity of each kind, and one message. *)
Lemma AddMessage_ids k net ch host d m s :
  let r := AddMessage_message k net ch host d m s in
  id_step (network_ids s) (network_ids (snd r)) ∧
  id_step (channel_ids s) (channel_ids (snd r)) ∧
  id_step (user_ids s) (user_ids (snd r)) ∧
  MessageIDCount (snd r) = wrap (MessageIDCount s + 1) ∧
  Message_ID (fst r) = MessageIDCount s.
Proof.
  rewrite AddMessage_message_steps.
  pose proof (getNetwork_ids net s) as (Hn1 & Hc1 & Hu1 & Hm1).
  destruct (getNetwork net s) as [n s1]. simpl in *.
  pose proof (getUser_ids n host s1) as (Hn2 & Hc2 & Hu2 & Hm2).
  destruct (getUser n host s1) as [u s2]. simpl in *.
  destruct (String.eqb ch "").
  - pose proof (addMessage_ids k n None u None d m s2) as (Hn & Hc & Hu & Hm & Hid).
    destruct (addMessage k n None u None d m s2) as [msg s']. simpl in *.
    rewrite Hn, Hc, Hu, Hm, Hid, Hn2, Hc2, Hc1, Hm2, Hm1.
    split; [done|]. split; [by left|]. split; [|done].
    eapply id_step_after; [exact Hu1|exact Hu2].
  - pose proof (getChannel_ids n ch s2) as (Hn3 & Hc3 & Hu3 & Hm3).
    destruct (getChannel n ch s2) as [c s3]. simpl in *.
    pose proof (getChannelUser_ids u ch s3) as (Hn4 & Hc4 & Hu4 & Hm4).
    destruct (getChannelUser u ch s3) as [cu s4]. simpl in *.
    pose proof (addMessage_ids k n (Some c) u (Some cu) d m s4) as (Hn & Hc & Hu & Hm & Hid).
    destruct (addMessage k n (Some c) u (Some cu) d m s4) as [msg s']. simpl in *.
    rewrite Hn, Hc, Hu, Hm, Hid, Hn4, Hc4, Hu4, Hm4, Hn3, Hu3, Hm3, Hn2, Hm2, Hm1.
    split; [done|]. split; [|split; [|done]].
    + eapply id_step_after; [|exact Hc3]. congruence.
    + eapply id_step_after; [exact Hu1|exact Hu2].
Qed.

(** After [k] calls on a new Stats: the ids of each kind are numbered
    from 1, there are at most [k] entities of each kind, and the message
    counter is at [1 + k]. *)
Definition run_inv (k : nat) (s : Stats) : Prop :=
  (numbered (network_ids s) ∧ (length (ids (network_ids s)) ≤ k)%nat) ∧
  (numbered (channel_ids s) ∧ (length (ids (channel_ids s)) ≤ k)%nat) ∧
  (numbered (user_ids s) ∧ (length (ids (user_ids s)) ≤ k)%nat) ∧
  MessageIDCount s = wrap (1 + Z.of_nat k).

Lemma run_inv_emptyStats : run_inv 0 emptyStats.
Proof. repeat split; simpl; try done; intros i id Hi; by destruct i. Qed.

Lemma run_inv_AddMessage k c s :
  run_inv k s →
  run_inv (S k) (snd (AddMessage_call c s)) ∧
  Message_ID (fst (AddMessage_call c s)) = wrap (1 + Z.of_nat k).
Proof.
  intros ([Hn Hnl] & [Hc Hcl] & [Hu Hul] & Hm).
  unfold AddMessage_call.
  pose proof (AddMessage_ids (call_kind c) (call_network c) (call_channel c)
                (call_hostmask c) (call_date c) (call_message c) s)
    as (Hn' & Hc' & Hu' & Hm' & Hid).
  cbv zeta in *. split; [|congruence].
  pose proof (id_step_length _ _ Hn'). pose proof (id_step_length _ _ Hc').
  pose proof (id_step_length _ _ Hu').
  split; [split; [exact (id_step_numbered _ _ Hn Hn')|lia]|].
  split; [split; [exact (id_step_numbered _ _ Hc Hc')|lia]|].
  split; [split; [exact (id_step_numbered _ _ Hu Hu')|lia]|].
  rewrite Hm', Hm, wrap_succ. f_equal. lia.
Qed.

Lemma run_inv_AddMessages calls : ∀ k s,
  run_inv k s →
  run_inv (k + length calls) (snd (AddMessages calls s)) ∧
  map Message_ID (fst (AddMessages calls s)) =
    map (λ i, wrap (1 + Z.of_nat (k + i))) (seq 0 (length calls)).
Proof.
  induction calls as [|c calls IH]; intros k s Hinv; simpl.
  - by rewrite Nat.add_0_r.
  - unfold bind.
    destruct (run_inv_AddMessage k c s Hinv) as [Hinv1 Hid].
    destruct (AddMessage_call c s) as [m s1]. simpl in *.
    destruct (IH (S k) s1 Hinv1) as [Hinv2 Hids].
    destruct (AddMessages calls s1) as [ms s2]. simpl in *.
    split.
    + by rewrite <- Nat.add_succ_comm.
    + rewrite Hid, Hids, Nat.add_0_r. f_equal.
      rewrite <- seq_shift, map_map. apply map_ext. intros i. do 3 f_equal. lia.
Qed.

(** The stores only grow: an entity keeps its place and its id. *)
Lemma AddMessages_prefix calls : ∀ s,
  let s' := snd (AddMessages calls s) in
  ids (network_ids s) `prefix_of` ids (network_ids s') ∧
  ids (channel_ids s) `prefix_of` ids (channel_ids s') ∧
  ids (user_ids s) `prefix_of` ids (user_ids s').
Proof.
  induction calls as [|c calls IH]; intros s; simpl; [done|].
  unfold bind, AddMessage_call.
  pose proof (AddMessage_ids (call_kind c) (call_network c) (call_channel c)
                (call_hostmask c) (call_date c) (call_message c) s)
    as (Hn & Hc & Hu & _).
  destruct (AddMessage_message _ _ _ _ _ _ s) as [m s1]. simpl in *.
  specialize (IH s1). destruct (AddMessages calls s1) as [ms s2]. simpl in *.
  destruct IH as (IHn & IHc & IHu).
  apply id_step_prefix in Hn, Hc, Hu.
  repeat split; etrans; eauto.
Qed.

(** C9: in a run of at most 2^64 [AddMessage] calls on a new Stats, the
    Networks created have pairwise distinct ids, and so have the
    Channels, the Users and the Messages; and whatever calls follow, each
    Network, Channel and User keeps its id. *)
Theorem ids_unique_and_stable (calls : list Call) :
  Z.of_nat (length calls) ≤ uint_modulus →
  let msgs := fst (AddMessages calls emptyStats) in
  let s := snd (AddMessages calls emptyStats) in
  (NoDup (map Network_ID (Network_objs s)) ∧
   NoDup (map Channel_ID (Channel_objs s)) ∧
   NoDup (map User_ID (User_objs s)) ∧
   NoDup (map Message_ID msgs)) ∧
  ∀ more : list Call,
    let s' := snd (AddMessages more s) in
    map Network_ID (Network_objs s) `prefix_of` map Network_ID (Network_objs s') ∧
    map Channel_ID (Channel_objs s) `prefix_of` map Channel_ID (Channel_objs s') ∧
    map User_ID (User_objs s) `prefix_of` map User_ID (User_objs s').
Proof.
  intros Hlen msgs s.
  destruct (run_inv_AddMessages calls 0 emptyStats run_inv_emptyStats)
    as [([Hn Hnl] & [Hc Hcl] & [Hu Hul] & _) Hmsgs].
  fold s in Hn, Hnl, Hc, Hcl, Hu, Hul. fold msgs in Hmsgs. simpl in *.
  split; [|intros more; apply AddMessages_prefix].
  split; [apply (numbered_NoDup _ Hn); simpl; lia|].
  split; [apply (numbered_NoDup _ Hc); simpl; lia|].
  split; [apply (numbered_NoDup _ Hu); simpl; lia|].
  rewrite Hmsgs. apply NoDup_fmap_2_strong; [|apply NoDup_seq].
  intros i j Hi%elem_of_seq Hj%elem_of_seq Heq.
  apply wrap_succ_inj in Heq; lia.
Qed.

(** *** Pointers lead to objects *)

(** Every entry of the name index leads to a network of the store, and
    every entry of a network's nick index to a user of the store. *)
Definition valid_inv (s : Stats) : Prop :=
  (∀ key a, networkByName s !! key = Some a → (a < length (Network_objs s))%nat) ∧
  (∀ na n key a, Network_objs s !! na = Some n → Network_users n !! key = Some a →
                 (a < length (User_objs s))%nat).

(** The name index, the nick index of every network and the number of
    users are the same in both states. *)
Definition users_index_kept (s s' : Stats) : Prop :=
  networkByName s' = networkByName s ∧
  map Network_users (Network_objs s') = map Network_users (Network_objs s) ∧
  length (User_objs s') = length (User_objs s).

Lemma valid_inv_kept s s' : users_index_kept s s' → valid_inv s → valid_inv s'.
Proof.
  intros (Hidx & Husers & Hlen) [Hn Hu]. split.
  - intros key a Ha. rewrite Hidx in Ha. apply Hn in Ha.
    apply (f_equal length) in Husers. rewrite !length_map in Husers. lia.
  - intros na n key a Hna Ha. rewrite Hlen.
    assert (map Network_users (Network_objs s') !! na = Some (Network_users n)) as Hl.
    { change (map ?f ?l) with (f <$> l). by rewrite list_lookup_fmap, Hna. }
    rewrite Husers in Hl. change (map ?f ?l) with (f <$> l) in Hl.
    rewrite list_lookup_fmap in Hl.
    destruct (Network_objs s !! na) as [n0|] eqn:Hn0; [|done].
    injection Hl as Hl. eapply Hu; [exact Hn0|]. by rewrite Hl.
Qed.

Lemma valid_inv_emptyStats : valid_inv emptyStats.
Proof. split; intros; simpl in *; by simplify_map_eq. Qed.

Lemma valid_inv_getNetwork name s :
  valid_inv s →
  valid_inv (snd (getNetwork name s)) ∧
  (fst (getNetwork name s) < length (Network_objs (snd (getNetwork name s))))%nat.
Proof.
  intros [Hn Hu].
  destruct (networkByName s !! ToLower name) as [n|] eqn:Hl.
  - rewrite (getNetwork_found _ _ _ Hl). simpl. split; [done|by eapply Hn].
  - rewrite (getNetwork_new _ _ Hl). unfold with_new_Network. simpl.
    rewrite length_app. simpl. split; [split|lia].
    + intros key a Ha. simpl in *. rewrite length_app. simpl.
      destruct (decide (ToLower name = key)) as [<-|Hne].
      * rewrite lookup_insert_eq in Ha. injection Ha as <-. lia.
      * rewrite lookup_insert_ne in Ha by done. apply Hn in Ha. lia.
    + intros na n key a Hna Ha. simpl in *.
      apply lookup_app_Some in Hna as [Hna|[_ Hna]]; [by eapply Hu|].
      apply list_lookup_singleton_Some in Hna as [_ <-]. simpl in Ha.
      by rewrite lookup_empty in Ha.
Qed.

Lemma valid_inv_getUser n host s :
  valid_inv s →
  valid_inv (snd (getUser n host s)) ∧
  ((n < length (Network_objs s))%nat →
   (fst (getUser n host s) < length (User_objs (snd (getUser n host s))))%nat) ∧
  length (Network_objs (snd (getUser n host s))) = length (Network_objs s).
Proof.
  intros [Hn Hu]. unfold getUser, addUser. run_method.
  destruct (Network_objs s !! n ≫= _) as [u|] eqn:Hfound; simpl.
  - split; [done|]. split; [|done]. intros _.
    destruct (Network_objs s !! n) as [n'|] eqn:Hn'; [|done]. simpl in Hfound.
    by eapply Hu.
  - rewrite length_app, length_alter. simpl. split; [split|split; [intros; lia|done]].
    + intros key a Ha. simpl in *. rewrite length_alter. by eapply Hn.
    + intros na n' key a Hna Ha. simpl in *. rewrite length_app. simpl.
      destruct (decide (na = n)) as [->|Hne].
      * rewrite list_lookup_alter_eq in Hna.
        destruct (Network_objs s !! n) as [n0|] eqn:Hn0; simpl in Hna; [|done].
        injection Hna as <-. simpl in Ha.
        destruct (decide (ToLower (Nick host) = key)) as [<-|Hk].
        -- rewrite lookup_insert_eq in Ha. injection Ha as <-. lia.
        -- rewrite lookup_insert_ne in Ha by done.
           pose proof (Hu _ _ _ _ Hn0 Ha). lia.
      * rewrite list_lookup_alter_ne in Hna by done.
        pose proof (Hu _ _ _ _ Hna Ha). lia.
Qed.

Ltac index_kept_by_alter :=
  repeat split; simpl; rewrite ?length_alter; try done; by apply map_alter_kept.

Lemma getChannel_users_index_kept n name s :
  users_index_kept s (snd (getChannel n name s)).
Proof.
  unfold getChannel, addChannel. run_method.
  destruct (Network_objs s !! n ≫= _) as [c|]; simpl; [by repeat split|].
  index_kept_by_alter.
Qed.

Lemma getChannelUser_users_index_kept u channel s :
  users_index_kept s (snd (getChannelUser u channel s)).
Proof.
  unfold getChannelUser. run_method.
  destruct (User_objs s !! u ≫= _) as [cu|]; simpl; [by repeat split|].
  index_kept_by_alter.
Qed.

Lemma addMessage_users_index_kept k n c u cu d m s :
  users_index_kept s (snd (addMessage k n c u cu d m s)).
Proof.
  unfold addMessage. run_method.
  destruct c as [c|]; simpl.
  - destruct k, cu as [[cu key]|]; simpl; index_kept_by_alter.
  - index_kept_by_alter.
Qed.

Lemma valid_inv_AddMessage_call c s : valid_inv s → valid_inv (snd (AddMessage_call c s)).
Proof.
  intros Hv. unfold AddMessage_call. rewrite AddMessage_message_steps.
  destruct (valid_inv_getNetwork (call_network c) s Hv) as [Hv1 _].
  destruct (getNetwork (call_network c) s) as [n s1]. simpl in *.
  destruct (valid_inv_getUser n (call_hostmask c) s1 Hv1) as [Hv2 _].
  destruct (getUser n (call_hostmask c) s1) as [u s2]. simpl in *.
  destruct (String.eqb (call_channel c) "").
  - eapply valid_inv_kept; [apply addMessage_users_index_kept|done].
  - pose proof (getChannel_users_index_kept n (call_channel c) s2) as Hc.
    destruct (getChannel n (call_channel c) s2) as [ch s3]. simpl in *.
    pose proof (getChannelUser_users_index_kept u (call_channel c) s3) as Hcu.
    destruct (getChannelUser u (call_channel c) s3) as [cu s4]. simpl in *.
    eapply valid_inv_kept; [apply addMessage_users_index_kept|].
    eapply valid_inv_kept; [exact Hcu|].
    eapply valid_inv_kept; [exact Hc|done].
Qed.

Lemma valid_inv_AddMessages calls : ∀ s,
  valid_inv s → valid_inv (snd (AddMessages calls s)).
Proof.
  induction calls as [|c calls IH]; intros s Hv; simpl; [done|].
  unfold bind. pose proof (valid_inv_AddMessage_call c s Hv) as Hv1.
  destruct (AddMessage_call c s) as [m s1]. simpl in *.
  specialize (IH s1 Hv1). by destruct (AddMessages calls s1).
Qed.

(** In a state reached by [AddMessage] calls the name index leads to
    Network objects only. *)
Lemma index_leads_to_Networks (calls : list Call) :
  let s := snd (AddMessages calls emptyStats) in
  ∀ key a, networkByName s !! key = Some a → is_Some (Network_objs s !! a).
Proof.
  intros s key a Ha. apply lookup_lt_is_Some.
  exact (proj1 (valid_inv_AddMessages calls emptyStats valid_inv_emptyStats) key a Ha).
Qed.

(** *** A message without a channel *)







(** C8: when there is no snapshot file, [NewStats] succeeds and returns an
    empty Stats (no networks, channels or users, an empty name index)
    whose four id counters are 1; the missing file is not an error. *)
Theorem NewStats_without_snapshot :
  loadDatabase NoFile = Ok (None, None) ∧
  ∃ s, NewStats NoFile = Ok (Some s) ∧
    Networks s = ∅ ∧ Channels s = ∅ ∧ Users s = ∅ ∧ networkByName s = ∅ ∧
    Network_objs s = [] ∧ Channel_objs s = [] ∧ User_objs s = [] ∧
    NetworkIDCount s = 1 ∧ MessageIDCount s = 1 ∧
    ChannelIDCount s = 1 ∧ UserIDCount s = 1.
Proof.
  split; [reflexivity|].
  exists emptyStats. repeat split; reflexivity.
Qed.

(** C4: when [enc.Encode] fails, [Save] does not return false: it calls
    [log.Fatal], which ends the process with status 1 before the
    [return false] that follows it; whenever [Save] does return, it
    returns true. *)
Theorem Save_encode_failure (s : Stats) (err : error) :
  Save (Some err) s = Exit 1 ∧
  ∀ encode_err b db, Save encode_err s = Ok (b, db) → b = true.
Proof.
  split; [done|].
  intros [e|] b db Hs; simpl in Hs; [done|]. by injection Hs as <- _.
Qed.

End props.
End StatsProps.

(** ** Stats at work *)

Module StatsExamples.
Import StatsDB StatsProps.

Local Existing Instance ascii_strings.
Local Existing Instance go_runtime.

Definition freenode_first : Call := mkCall Msg "Freenode" "#Go" "Alice!a@host" 0 "see http://a.bc".
Definition freenode_quit : Call := mkCall Quit "freenode" "" "alice!a@host" 1 "bye".
Definition freenode_other : Call := mkCall Action "FREENODE" "#go" "Bob" 2 "waves!".

(** The state after the first message on network Freenode. *)
Definition one_message : Stats :=
  AddMessage Msg "Freenode" "#Go" "Alice!a@host" 0 "see http://a.bc" emptyStats.

(** C2: a save and a load do not give back the name index.  The network
    created as Freenode is found under freenode before the save and is
    not found after the load, where it is indexed under Freenode: the
    index is rebuilt from [n.Name], not from its lower-case form.  The
    next message on Freenode then creates a second network. *)
Theorem Save_then_load_loses_network :
  ∃ db loaded,
    Save None one_message = Ok (true, db) ∧
    NewStats db = Ok (Some loaded) ∧
    GetNetwork "freenode" one_message = Some 0%nat ∧
    GetNetwork "freenode" loaded = None ∧
    GetNetwork "Freenode" loaded = Some 0%nat ∧
    length (Network_objs (AddMessage Msg "Freenode" "#Go" "Alice!a@host" 1 "again"
                            one_message)) = 1%nat ∧
    length (Network_objs (AddMessage Msg "Freenode" "#Go" "Alice!a@host" 1 "again"
                            loaded)) = 2%nat.
Proof.
  eexists _, _. split; [reflexivity|]. split; [reflexivity|].
  repeat split; vm_compute; reflexivity.
Qed.

Lemma getNetwork_ignores_case_witness :
  let s := snd (AddMessages [freenode_first] emptyStats) in
  let n1 := fst (getNetwork "FREENODE" s) in
  let s0 := snd (getNetwork "FREENODE" s) in
  let s1 := AddMessage Msg "FREENODE" "#Go" "Bob!b@host" 1 "hi" s in
  let s2 := AddMessage Quit "freenode" "" "alice!a@host" 2 "bye" s1 in
  getNetwork "freenode" s1 = (n1, s1) ∧
  (∃ net0 net1 net2,
     Network_objs s0 !! n1 = Some net0 ∧
     Network_objs s1 !! n1 = Some net1 ∧
     Network_objs s2 !! n1 = Some net2 ∧
     Network_ID net1 = Network_ID net0 ∧ Network_ID net2 = Network_ID net0 ∧
     Network_Name net1 = Network_Name net0 ∧ Network_Name net2 = Network_Name net0 ∧
     (networkByName s !! ToLower "FREENODE" = None →
      Network_ID net0 = NetworkIDCount s ∧ Network_Name net0 = "FREENODE" ∧
      NetworkIDCount s1 = wrap (NetworkIDCount s + 1) ∧
      length (Network_objs s1) = S (length (Network_objs s)))) ∧
  Network_ID_at n1 s1 = Network_ID_at n1 s0 ∧
  Network_ID_at n1 s2 = Network_ID_at n1 s1 ∧
  length (Network_objs s2) = length (Network_objs s1) ∧
  NetworkIDCount s2 = NetworkIDCount s1 ∧
  Networks s2 = Networks s1 ∧
  networkByName s2 = networkByName s1.
Proof.
  apply (@getNetwork_ignores_case ascii_strings
           (snd (AddMessages [freenode_first] emptyStats)) "FREENODE" "freenode").
  - exact (@index_leads_to_Networks ascii_strings [freenode_first]).
  - reflexivity.
Defined.

Lemma GetNetwork_by_lowercase_name_witness :
  let calls := [freenode_first; freenode_quit; freenode_other] in
  let s := snd (AddMessages calls emptyStats) in
  (∀ key, GetNetwork key s = networkByName s !! key) ∧
  (∀ key, is_Some (networkByName s !! key) ↔
          ∃ c', In c' calls ∧ key = ToLower (call_network c')) ∧
  (∃ a n, GetNetwork (ToLower "Freenode") s = Some a ∧
          Network_objs s !! a = Some n ∧
          ToLower (Network_Name n) = ToLower "Freenode") ∧
  GetNetwork "Freenode" s = None.
Proof.
  apply (@GetNetwork_by_lowercase_name ascii_strings
           [freenode_first; freenode_quit; freenode_other] freenode_first).
  - simpl. by left.
  - vm_compute. discriminate.
Defined.

Lemma ids_unique_and_stable_witness :
  let calls := [freenode_first; freenode_quit; freenode_other] in
  let msgs := fst (AddMessages calls emptyStats) in
  let s := snd (AddMessages calls emptyStats) in
  (NoDup (map Network_ID (Network_objs s)) ∧
   NoDup (map Channel_ID (Channel_objs s)) ∧
   NoDup (map User_ID (User_objs s)) ∧
   NoDup (map Message_ID msgs)) ∧
  ∀ more : list Call,
    let s' := snd (AddMessages more s) in
    map Network_ID (Network_objs s) `prefix_of` map Network_ID (Network_objs s') ∧
    map Channel_ID (Channel_objs s) `prefix_of` map Channel_ID (Channel_objs s') ∧
    map User_ID (User_objs s) `prefix_of` map User_ID (User_objs s').
Proof.
  apply (@ids_unique_and_stable ascii_strings
           [freenode_first; freenode_quit; freenode_other]).
  vm_compute. discriminate.
Defined.

(** The run above: one network, one channel, two users, three messages. *)
Example three_calls :
  let r := AddMessages [freenode_first; freenode_quit; freenode_other] emptyStats in
  map Message_ID (fst r) = [1; 2; 3] ∧
  map Message_ChannelID (fst r) = [1; 0; 1] ∧
  map Network_Name (Network_objs (snd r)) = ["Freenode"] ∧
  map Network_MessageIDs (Network_objs (snd r)) = [[1; 2; 3]] ∧
  map Channel_MessageIDs (Channel_objs (snd r)) = [[1; 3]] ∧
  map User_Nick (User_objs (snd r)) = ["Alice"; "Bob"] ∧
  map User_MessageIDs (User_objs (snd r)) = [[1; 2]; [3]].
Proof. vm_compute. repeat split. Qed.

(** The scenario of the specification: three messages of one user, the
    first without a channel. *)
Example three_messages_of_one_user :
  let calls := [mkCall Msg "net" "" "u!x@y" 0 "m1";
                mkCall Msg "net" "#chan" "u!x@y" 1 "m2";
                mkCall Msg "net" "#chan" "u!x@y" 2 "m3 !!"] in
  let s := snd (AddMessages calls emptyStats) in
  map (λ c, length (Channel_MessageIDs c)) (Channel_objs s) = [2%nat] ∧
  map (λ c, Counters.Exclamations (Channel_counters c)) (Channel_objs s) = [1] ∧
  map (λ n, length (Network_MessageIDs n)) (Network_objs s) = [3%nat] ∧
  map (λ u, length (User_MessageIDs u)) (User_objs s) = [3%nat].
Proof. vm_compute. repeat split. Qed.

End StatsExamples.

(** * Further properties of the code *)

(** ** counters.go *)

Module CountersProps.
Import Counters.

(** The two tests of the loop of [AllCapsCount.addMessage]. *)
Definition above_A_below_Z (c : ascii) : bool :=
  (N_of_ascii "A" <? N_of_ascii c)%N && (N_of_ascii c <? N_of_ascii "Z")%N.
Definition above_a_below_z (c : ascii) : bool :=
  (N_of_ascii "a" <? N_of_ascii c)%N && (N_of_ascii c <? N_of_ascii "z")%N.

Lemma allCaps_scan_spec s : ∀ seen,
  allCaps_scan s seen =
  if existsb above_a_below_z (list_ascii_of_string s) then None
  else Some (seen || existsb above_A_below_Z (list_ascii_of_string s)).
Proof.
  induction s as [|c s IH]; intros seen;
    cbn [allCaps_scan list_ascii_of_string existsb].
  - by rewrite orb_false_r.
  - change ((N_of_ascii "a" <? N_of_ascii c)%N && (N_of_ascii c <? N_of_ascii "z")%N)
      with (above_a_below_z c).
    change ((N_of_ascii "A" <? N_of_ascii c)%N && (N_of_ascii c <? N_of_ascii "Z")%N)
      with (above_A_below_Z c).
    destruct (above_a_below_z c) eqn:Elow; cbn [orb]; [done|].
    rewrite IH. destruct (existsb above_a_below_z _); [done|].
    by destruct (above_A_below_Z c), seen.
Qed.

(** A message bumps the all-caps count exactly when none of its bytes is
    strictly between ['a'] and ['z'] and one of them is strictly between
    ['A'] and ['Z'] (so the letters a, z, A and Z themselves count for
    neither test); otherwise the count stays as it is. *)
Theorem AllCapsCount_addMessage_iff (message : Message) (a : Z) :
  let text := list_ascii_of_string (Message_Message message) in
  AllCapsCount_addMessage message a =
  if existsb above_A_below_Z text && negb (existsb above_a_below_z text)
  then wrap (a + 1) else a.
Proof.
  intros text. unfold AllCapsCount_addMessage. rewrite allCaps_scan_spec. fold text.
  destruct (existsb above_a_below_z text); simpl.
  - by rewrite andb_false_r.
  - rewrite andb_true_r. by destruct (existsb above_A_below_Z text).
Qed.

(** *** Suffixes *)

Lemma substring_all s : substring 0 (String.length s) s = s.
Proof. induction s as [|c s IH]; simpl; [done|]. by rewrite IH. Qed.

Lemma substring_after p s :
  substring (String.length p) (String.length s) (p +:+ s) = s.
Proof. induction p as [|c p IH]; simpl; [apply substring_all|done]. Qed.

Lemma substring_split s : ∀ m,
  (m ≤ String.length s)%nat →
  s = substring 0 m s +:+ substring m (String.length s - m) s.
Proof.
  induction s as [|c s IH]; intros m Hm; simpl in *.
  - by destruct m.
  - destruct m as [|m]; simpl.
    + by rewrite substring_all.
    + rewrite (IH m) at 1 by lia. reflexivity.
Qed.

Lemma length_append_string p s :
  String.length (p +:+ s) = (String.length p + String.length s)%nat.
Proof. induction p as [|c p IH]; simpl; [done|]. by rewrite IH. Qed.

(** [HasSuffix s suffix] holds exactly when [s] ends with [suffix]. *)
Lemma HasSuffix_iff s suffix :
  HasSuffix s suffix = true ↔ ∃ p, s = p +:+ suffix.
Proof.
  unfold HasSuffix. rewrite andb_true_iff, Nat.leb_le, String.eqb_eq. split.
  - intros [Hle Hsub].
    exists (substring 0 (String.length s - String.length suffix) s).
    rewrite <- Hsub at 2.
    rewrite (substring_split s (String.length s - String.length suffix)) at 1 by lia.
    do 2 f_equal. lia.
  - intros [p ->]. rewrite length_append_string. split; [lia|].
    replace (String.length p + String.length suffix - String.length suffix)%nat
      with (String.length p) by lia.
    apply substring_after.
Qed.

Section with_strings.
Context `{GoStrings}.

Lemma countSuffixes_from (words : list string) (suffix : string) : ∀ count,
  fold_left (λ count word, if HasSuffix word suffix then count + 1 else count)
            words count =
  count + Z.of_nat (length (List.filter (λ word, HasSuffix word suffix) words)).
Proof.
  induction words as [|w words IH]; intros count; simpl; [lia|].
  rewrite IH. destruct (HasSuffix w suffix); simpl; lia.
Qed.

(** [countSuffixes] is the number of words of the message (as
    [strings.Fields] cuts it) that end with the suffix; it is at most the
    number of words. *)
Theorem countSuffixes_counts (message suffix : string) :
  let ending := List.filter (λ word, HasSuffix word suffix) (Fields message) in
  countSuffixes message suffix = Z.of_nat (length ending) ∧
  (∀ word, In word ending ↔ In word (Fields message) ∧ ∃ p, word = p +:+ suffix) ∧
  0 ≤ countSuffixes message suffix ≤ Z.of_nat (length (Fields message)).
Proof.
  intros ending. unfold countSuffixes. rewrite countSuffixes_from. fold ending.
  split; [lia|]. split.
  - intros word. unfold ending. rewrite filter_In, HasSuffix_iff. done.
  - pose proof (filter_length_le (λ word, HasSuffix word suffix) (Fields message)) as Hle.
    fold ending in Hle. lia.
Qed.

(** *** Counters over a run of messages *)

Definition Zsum (l : list Z) : Z := foldr Z.add 0 l.

(** The number of space bytes of a text. *)
Definition spaces (s : string) : nat :=
  count_occ ascii_dec (list_ascii_of_string s) space.

Lemma length_remove_spaces s :
  (String.length (remove_spaces s) + spaces s = String.length s)%nat.
Proof.
  unfold spaces. induction s as [|c s IH]; cbn [remove_spaces list_ascii_of_string]; [done|].
  destruct (Ascii.eqb c space) eqn:E.
  - apply Ascii.eqb_eq in E as ->. rewrite count_occ_cons_eq by done. simpl. lia.
  - apply Ascii.eqb_neq in E. rewrite count_occ_cons_neq by done. simpl. lia.
Qed.

(** A counter that adds, as a [uint], one amount for each message. *)
Lemma fold_wrap_add {A} (f : A → Z) (l : list A) : ∀ a,
  wrap (fold_left (λ acc x, wrap (acc + f x)) l a) = wrap (a + Zsum (map f l)).
Proof.
  induction l as [|x l IH]; intros a; simpl.
  - f_equal. lia.
  - rewrite IH. unfold wrap. rewrite Zplus_mod_idemp_l. f_equal. lia.
Qed.

Lemma wrap_idem x : wrap (wrap x) = wrap x.
Proof. unfold wrap. apply Zmod_mod. Qed.

Lemma fold_wrap_add_zero {A} (f : A → Z) (l : list A) :
  fold_left (λ acc x, wrap (acc + f x)) l 0 = wrap (Zsum (map f l)).
Proof.
  replace (Zsum (map f l)) with (0 + Zsum (map f l)) by lia.
  rewrite <- (fold_wrap_add f l 0).
  destruct l as [|x l _] using rev_ind; [done|].
  rewrite fold_left_app. simpl. by rewrite wrap_idem.
Qed.

Lemma Zsum_ones {A} (l : list A) : Zsum (map (λ _, 1) l) = Z.of_nat (length l).
Proof.
  unfold Zsum. induction l as [|x l IH]; cbn [map foldr length]; [done|].
  rewrite IH, Nat2Z.inj_succ. lia.
Qed.

(** Running [BasicTextCounters.addMessage] over messages. *)
Definition Basic_run (msgs : list Message) (c : BasicTextCounters) : BasicTextCounters :=
  fold_left (λ c m, BasicTextCounters_addMessage m c) msgs c.

Lemma Basic_run_fields msgs : ∀ c,
  Lines (Basic_run msgs c) = fold_left (λ acc m, wrap (acc + 1)) msgs (Lines c) ∧
  Words (Basic_run msgs c) =
    fold_left (λ acc m, wrap (acc + Z.of_nat (length (Fields (Message_Message m)))))
              msgs (Words c) ∧
  Letters (Basic_run msgs c) =
    fold_left (λ acc m, wrap (acc + Z.of_nat (String.length (remove_spaces (Message_Message m)))))
              msgs (Letters c).
Proof.
  unfold Basic_run. induction msgs as [|m msgs IH]; intros c; simpl; [done|].
  apply IH.
Qed.

(** Starting from zero, after any run of messages [Lines] is the number
    of messages, [Words] the number of words of all messages (as
    [strings.Fields] cuts them) and [Letters] the number of bytes of all
    messages that are not the space byte, each as a [uint] (modulo
    2^64): tabs, digits and punctuation are letters too. *)
Theorem BasicTextCounters_after_run (msgs : list Message) :
  let c := Basic_run msgs (mkBasic 0 0 0) in
  Lines c = wrap (Z.of_nat (length msgs)) ∧
  Words c = wrap (Zsum (map (λ m, Z.of_nat (length (Fields (Message_Message m)))) msgs)) ∧
  Letters c =
    wrap (Zsum (map (λ m, Z.of_nat (String.length (Message_Message m))
                          - Z.of_nat (spaces (Message_Message m))) msgs)).
Proof.
  intros c. destruct (Basic_run_fields msgs (mkBasic 0 0 0)) as (Hl & Hw & Ht).
  fold c in Hl, Hw, Ht. simpl in Hl, Hw, Ht.
  rewrite Hl, Hw, Ht, !fold_wrap_add_zero. split; [|split; [done|]].
  - f_equal. apply Zsum_ones.
  - do 2 f_equal. apply map_ext. intros m.
    pose proof (length_remove_spaces (Message_Message m)). lia.
Qed.

(** Starting from zero, after any run of messages the question count is
    the number of words of all messages that end with a question mark,
    and the exclamation count the number that end with an exclamation
    mark, each as a [uint]. *)
Theorem suffix_counts_after_run (msgs : list Message) :
  fold_left (λ q m, QuestionsCount_addMessage m q) msgs 0 =
    wrap (Zsum (map (λ m, countSuffixes (Message_Message m) "?") msgs)) ∧
  fold_left (λ e m, ExclamationsCount_addMessage m e) msgs 0 =
    wrap (Zsum (map (λ m, countSuffixes (Message_Message m) "!") msgs)).
Proof.
  split.
  - apply (fold_wrap_add_zero (λ m, countSuffixes (Message_Message m) "?")).
  - apply (fold_wrap_add_zero (λ m, countSuffixes (Message_Message m) "!")).
Qed.

End with_strings.
End CountersProps.

(** ** urls.go *)

Module UrlsMore.
Import Regexp RegexpProps Urls UrlRegexProps UrlsProps.

Lemma fold_incr_all ws (u : urls) w :
  fold_left (λ u x, incr x u) ws u !! w =
  if occurrences w ws =? 0 then u !! w
  else Some (wrap (default 0 (u !! w) + occurrences w ws)).
Proof.
  pose proof (fold_incr_lookup (λ _, true) ws u w) as Hl.
  cbn beta iota in Hl. rewrite Hl. by destruct (occurrences w ws =? 0).
Qed.

Lemma fold_incr_Permutation ws ws' (u : urls) :
  ws ≡ₚ ws' → fold_left (λ u x, incr x u) ws u = fold_left (λ u x, incr x u) ws' u.
Proof.
  intros Hp. apply map_eq. intros w. rewrite !fold_incr_all.
  unfold occurrences.
  by rewrite (proj1 (Permutation_count_occ string_dec ws ws') Hp w).
Qed.

(** The tracker does not depend on the order in which the messages come:
    the same messages in another order leave the same counts. *)
Theorem record_all_any_order (msgs msgs' : list Message) (u : urls) :
  msgs ≡ₚ msgs' → record_all msgs u = record_all msgs' u.
Proof.
  intros Hp. rewrite !record_all_recorded.
  apply fold_incr_Permutation. unfold recorded. by apply Permutation_flat_map.
Qed.

(** A message only adds keys: the keys after [addMessage] are the keys
    before and the counted words of the message; a message without a
    counted word leaves the tracker as it is. *)
Theorem addMessage_keys (m : Message) (u : urls) :
  dom (addMessage m u) = dom u ∪ list_to_set (url_words m) ∧
  (url_words m = [] → addMessage m u = u).
Proof.
  rewrite addMessage_url_words. split.
  - apply set_eq. intros w.
    rewrite elem_of_union, !elem_of_dom, elem_of_list_to_set, list_elem_of_In.
    rewrite fold_incr_all, occurrences_pos.
    destruct (occurrences w (url_words m) =? 0) eqn:E.
    + apply Z.eqb_eq in E. split; [by left|]. intros [?|?]; [done|lia].
    + apply Z.eqb_neq in E. unfold occurrences in *. split; [|by eauto].
      intros _. right. lia.
  - by intros ->.
Qed.

(** Every token of a tracker filled by [addMessage] is a word that is not
    empty, has no space in it, and starts with a scheme or ends with a
    bare domain. *)
Theorem tokens_are_url_words (msgs : list Message) (w : string) :
  is_Some (record_all msgs NewURLs !! w) →
  url_word w ∧ ¬ In space (chars w) ∧ w ≠ EmptyString.
Proof.
  intros [c Hc]. apply record_all_lookup_Some in Hc as [Hin _].
  unfold recorded in Hin. apply in_flat_map in Hin as (m & _ & Hw).
  unfold url_words in Hw. apply filter_In in Hw as [Hsplit Hfound].
  assert (url_word w) as Hurl by (by apply urlRegex_found_iff).
  split; [done|]. split.
  - destruct (Split_Join (Message_Message m)) as [_ Hall].
    rewrite Forall_forall in Hall. apply Hall. by apply list_elem_of_In.
  - intros ->. vm_compute in Hfound. discriminate.
Qed.

Section top.
Context `{GoRuntime}.

(** [TopURLs(n)] returns a list of entries, none of them nil, exactly
    when the tracker is empty or [n] is between 0 and the number of
    tokens; in every other case it panics or returns nil entries. *)
Theorem TopURLs_entries_iff (u : urls) (n : Z) :
  (∃ top, TopURLs u n = Ok (map Some top)) ↔
  size u = 0%nat ∨ 0 ≤ n ≤ Z.of_nat (size u).
Proof.
  split.
  - intros [top Htop].
    destruct (decide (size u = 0%nat)) as [Hz|Hnz]; [by left|right].
    destruct (decide (n < 0)) as [Hneg|Hpos].
    { by rewrite (TopURLs_negative u n Hnz Hneg) in Htop. }
    destruct (decide (Z.of_nat (size u) < n)) as [Hbig|Hsmall]; [|lia].
    destruct (TopURLs_never_clamps u n Hnz Hbig) as [Hp|(l & Hl & _ & Hnil)].
    { by rewrite Hp in Htop. }
    rewrite Hl in Htop. injection Htop as ->.
    change (map Some top) with (Some <$> top) in Hnil.
    rewrite list_lookup_fmap in Hnil. by destruct (top !! size u).
  - intros [Hz|Hn].
    + exists []. unfold TopURLs. by rewrite Hz.
    + destruct (decide (size u = 0%nat)) as [Hz|Hnz].
      { exists []. unfold TopURLs. by rewrite Hz. }
      destruct (TopURLs_nonempty u n Hnz) as (c & Hc & ->).
      pose proof (length_sorted_entries u) as Hlen.
      rewrite slice_upto_within by (simpl; lia). eauto.
Qed.

End top.
End UrlsMore.

(** ** stats.go *)

Module StatsMore.
Import StatsDB Counters StatsProps.

Section more.
Context `{GoStrings} `{GoRuntime}.

(** *** Ids in order *)

(** In a run of fewer than 2^64 calls on a new Stats the messages get the
    ids 1, 2, 3, ... in the order of the calls, without a gap, and the
    message counter ends one above the last id (as a [uint]). *)
Theorem message_ids_consecutive (calls : list Call) :
  Z.of_nat (length calls) < uint_modulus →
  let r := AddMessages calls emptyStats in
  map Message_ID (fst r) = map (λ i, 1 + Z.of_nat i) (seq 0 (length calls)) ∧
  MessageIDCount (snd r) = wrap (1 + Z.of_nat (length calls)).
Proof.
  intros Hlen r.
  destruct (run_inv_AddMessages calls 0 emptyStats run_inv_emptyStats)
    as [(_ & _ & _ & Hcount) Hids].
  fold r in Hcount, Hids. split; [|exact Hcount].
  rewrite Hids. apply map_ext_in. intros i Hi%in_seq.
  unfold wrap. apply Z.mod_small. lia.
Qed.

(** *** The id tables *)

(** A table leads from an id to an entity that bears it, and every id in
    use is a key of the table. *)
Definition table_ok (t : gmap Z addr) (v : idview) : Prop :=
  (∀ id a, t !! id = Some a → ids v !! a = Some id) ∧
  (∀ a id, ids v !! a = Some id → is_Some (t !! id)).

(** The table and the ids stay, or one entity is created and entered
    under its id. *)
Definition table_step (t : gmap Z addr) (v : idview) (t' : gmap Z addr) (v' : idview) : Prop :=
  (t' = t ∧ v' = v) ∨
  (t' = <[counter v := length (ids v)]> t ∧
   v' = mkView (ids v ++ [counter v]) (wrap (counter v + 1))).

Lemma table_step_ok t v t' v' : table_ok t v → table_step t v t' v' → table_ok t' v'.
Proof.
  intros [Hto Hfrom] [[-> ->]|[-> ->]]; [done|]. split; simpl.
  - intros id a Ha. destruct (decide (counter v = id)) as [<-|Hne].
    + rewrite lookup_insert_eq in Ha. injection Ha as <-.
      by rewrite lookup_app_r, Nat.sub_diag.
    + rewrite lookup_insert_ne in Ha by done. apply lookup_app_l_Some. by apply Hto.
  - intros a id Ha. destruct (decide (counter v = id)) as [<-|Hne].
    + rewrite lookup_insert_eq. eauto.
    + rewrite lookup_insert_ne by done.
      apply lookup_app_Some in Ha as [Ha|[_ Ha]]; [by eapply Hfrom|].
      apply list_lookup_singleton_Some in Ha as [_ Ha]. done.
Qed.

Lemma table_ok_empty : table_ok ∅ (mkView [] 1).
Proof. split; intros ? ? Hl; simpl in Hl; [by rewrite lookup_empty in Hl|by destruct a]. Qed.

Ltac same_view := unfold network_ids, channel_ids, user_ids; simpl;
  f_equal; by apply map_alter_kept.

Lemma getNetwork_tables name s :
  let s' := snd (getNetwork name s) in
  table_step (Networks s) (network_ids s) (Networks s') (network_ids s') ∧
  (Channels s' = Channels s ∧ channel_ids s' = channel_ids s) ∧
  (Users s' = Users s ∧ user_ids s' = user_ids s).
Proof.
  destruct (networkByName s !! ToLower name) as [n|] eqn:Hl.
  - rewrite (getNetwork_found _ _ _ Hl). simpl. split; [by left|done].
  - rewrite (getNetwork_new _ _ Hl). unfold with_new_Network. simpl.
    split; [right|done]. unfold network_ids. simpl.
    by rewrite length_map, map_app.
Qed.

Lemma getUser_tables n host s :
  let s' := snd (getUser n host s) in
  (Networks s' = Networks s ∧ network_ids s' = network_ids s) ∧
  (Channels s' = Channels s ∧ channel_ids s' = channel_ids s) ∧
  table_step (Users s) (user_ids s) (Users s') (user_ids s').
Proof.
  unfold getUser, addUser. run_method.
  destruct (Network_objs s !! n ≫= _) as [u|]; simpl; [split; [done|split; [done|by left]]|].
  split; [split; [done|same_view]|]. split; [done|right].
  unfold user_ids. simpl. by rewrite length_map, map_app.
Qed.

Lemma getChannel_tables n name s :
  let s' := snd (getChannel n name s) in
  (Networks s' = Networks s ∧ network_ids s' = network_ids s) ∧
  table_step (Channels s) (channel_ids s) (Channels s') (channel_ids s') ∧
  (Users s' = Users s ∧ user_ids s' = user_ids s).
Proof.
  unfold getChannel, addChannel. run_method.
  destruct (Network_objs s !! n ≫= _) as [c|]; simpl; [split; [done|split; [by left|done]]|].
  split; [split; [done|same_view]|]. split; [right|done].
  unfold channel_ids. simpl. rewrite length_map, map_app. split; [|done].
  f_equal. unfold Channel_ID_at. simpl.
  by rewrite lookup_app_r, Nat.sub_diag.
Qed.

Lemma getChannelUser_tables u channel s :
  let s' := snd (getChannelUser u channel s) in
  (Networks s' = Networks s ∧ network_ids s' = network_ids s) ∧
  (Channels s' = Channels s ∧ channel_ids s' = channel_ids s) ∧
  (Users s' = Users s ∧ user_ids s' = user_ids s).
Proof.
  unfold getChannelUser. run_method.
  destruct (User_objs s !! u ≫= _) as [cu|]; simpl; [done|].
  split; [done|]. split; [done|]. split; [done|same_view].
Qed.

Lemma addMessage_tables k n c u cu d m s :
  let s' := snd (addMessage k n c u cu d m s) in
  (Networks s' = Networks s ∧ network_ids s' = network_ids s) ∧
  (Channels s' = Channels s ∧ channel_ids s' = channel_ids s) ∧
  (Users s' = Users s ∧ user_ids s' = user_ids s).
Proof.
  unfold addMessage. run_method.
  destruct c as [c|]; simpl.
  - destruct k, cu as [[cu key]|]; simpl;
      (split; [split; [done|same_view]|]; split; (split; [done|]));
      unfold channel_ids, user_ids; simpl; f_equal;
      rewrite ?map_alter_kept; done.
  - split; [split; [done|same_view]|]. split; [done|]. split; [done|same_view].
Qed.

(** All three tables are in order. *)
Definition tables_ok (s : Stats) : Prop :=
  table_ok (Networks s) (network_ids s) ∧
  table_ok (Channels s) (channel_ids s) ∧
  table_ok (Users s) (user_ids s).

Lemma tables_ok_AddMessage_call c s : tables_ok s → tables_ok (snd (AddMessage_call c s)).
Proof.
  intros (Hn & Hc & Hu). unfold AddMessage_call. rewrite AddMessage_message_steps.
  pose proof (getNetwork_tables (call_network c) s) as (Hn1 & [Hc1 Hc1'] & [Hu1 Hu1']).
  destruct (getNetwork (call_network c) s) as [n s1]. simpl in *.
  pose proof (getUser_tables n (call_hostmask c) s1) as ([Hn2 Hn2'] & [Hc2 Hc2'] & Hu2).
  destruct (getUser n (call_hostmask c) s1) as [u s2]. simpl in *.
  assert (tables_ok s2) as (Hn' & Hc' & Hu').
  { split; [|split].
    - rewrite Hn2, Hn2'. exact (table_step_ok _ _ _ _ Hn Hn1).
    - by rewrite Hc2, Hc2', Hc1, Hc1'.
    - eapply table_step_ok; [|exact Hu2]. by rewrite Hu1, Hu1'. }
  unfold tables_ok. destruct (String.eqb (call_channel c) "").
  - pose proof (addMessage_tables (call_kind c) n None u None (call_date c) (call_message c) s2)
      as ([-> ->] & [-> ->] & [-> ->]).
    done.
  - pose proof (getChannel_tables n (call_channel c) s2) as ([Hn3 Hn3'] & Hc3 & [Hu3 Hu3']).
    destruct (getChannel n (call_channel c) s2) as [ch s3]. simpl in *.
    pose proof (getChannelUser_tables u (call_channel c) s3) as ([Hn4 Hn4'] & [Hc4 Hc4'] & [Hu4 Hu4']).
    destruct (getChannelUser u (call_channel c) s3) as [cu s4]. simpl in *.
    pose proof (addMessage_tables (call_kind c) n (Some ch) u (Some cu) (call_date c)
                  (call_message c) s4) as ([-> ->] & [-> ->] & [-> ->]).
    rewrite Hn4, Hn4', Hn3, Hn3', Hc4, Hc4', Hu4, Hu4', Hu3, Hu3'.
    split; [done|]. split; [|done]. exact (table_step_ok _ _ _ _ Hc' Hc3).
Qed.

Lemma tables_ok_AddMessages calls : ∀ s,
  tables_ok s → tables_ok (snd (AddMessages calls s)).
Proof.
  induction calls as [|c calls IH]; intros s Hok; simpl; [done|].
  unfold bind. pose proof (tables_ok_AddMessage_call c s Hok) as Hok1.
  destruct (AddMessage_call c s) as [m s1]. simpl in *.
  specialize (IH s1 Hok1). by destruct (AddMessages calls s1).
Qed.

Lemma tables_ok_emptyStats : tables_ok emptyStats.
Proof. repeat split; try apply table_ok_empty. Qed.

Lemma table_ok_iff t v :
  table_ok t v → NoDup (ids v) → ∀ id a, t !! id = Some a ↔ ids v !! a = Some id.
Proof.
  intros [Hto Hfrom] Hnd id a. split; [apply Hto|].
  intros Ha. destruct (Hfrom a id Ha) as [a' Ha'].
  pose proof (Hto id a' Ha') as Hid.
  by rewrite (NoDup_lookup _ _ _ _ Hnd Ha Hid).
Qed.

Lemma lookup_map_Some {A} (f : A → Z) (l : list A) a id :
  map f l !! a = Some id ↔ ∃ x, l !! a = Some x ∧ f x = id.
Proof.
  change (map f l) with (f <$> l).
  rewrite list_lookup_fmap. destruct (l !! a) as [x|]; simpl; split.
  - intros [= <-]. eauto.
  - by intros (x' & [= <-] & <-).
  - done.
  - by intros (x' & ? & _).
Qed.

Lemma run_network_table (calls : list Call) :
  Z.of_nat (length calls) ≤ uint_modulus →
  let s := snd (AddMessages calls emptyStats) in
  ∀ id a, Networks s !! id = Some a ↔
          ∃ n, Network_objs s !! a = Some n ∧ Network_ID n = id.
Proof.
  intros Hlen s id a.
  destruct (run_inv_AddMessages calls 0 emptyStats run_inv_emptyStats)
    as [([Hn Hnl] & _) _].
  destruct (tables_ok_AddMessages calls emptyStats tables_ok_emptyStats) as (Tn & _).
  fold s in Hn, Hnl, Tn. simpl in Hnl.
  rewrite <- lookup_map_Some. apply (table_ok_iff _ _ Tn).
  apply (numbered_NoDup _ Hn). simpl. lia.
Qed.

(** In a run of at most 2^64 calls on a new Stats, each of the tables
    [Networks], [Channels] and [Users] leads from an id to the entity
    that bears this id, and every entity is in its table under its id. *)
Theorem id_tables_complete (calls : list Call) :
  Z.of_nat (length calls) ≤ uint_modulus →
  let s := snd (AddMessages calls emptyStats) in
  (∀ id a, Networks s !! id = Some a ↔
           ∃ n, Network_objs s !! a = Some n ∧ Network_ID n = id) ∧
  (∀ id a, Channels s !! id = Some a ↔
           ∃ c, Channel_objs s !! a = Some c ∧ Channel_ID c = id) ∧
  (∀ id a, Users s !! id = Some a ↔
           ∃ u, User_objs s !! a = Some u ∧ User_ID u = id).
Proof.
  intros Hlen s.
  destruct (run_inv_AddMessages calls 0 emptyStats run_inv_emptyStats)
    as [([Hn Hnl] & [Hc Hcl] & [Hu Hul] & _) _].
  destruct (tables_ok_AddMessages calls emptyStats tables_ok_emptyStats) as (Tn & Tc & Tu).
  fold s in Hn, Hnl, Hc, Hcl, Hu, Hul, Tn, Tc, Tu. simpl in Hnl, Hcl, Hul.
  split; [|split]; intros id a; rewrite <- lookup_map_Some.
  - apply (table_ok_iff _ _ Tn). apply (numbered_NoDup _ Hn). simpl. lia.
  - apply (table_ok_iff _ _ Tc). apply (numbered_NoDup _ Hc). simpl. lia.
  - apply (table_ok_iff _ _ Tu). apply (numbered_NoDup _ Hu). simpl. lia.
Qed.

(** *** The index that [buildIndexes] builds *)

Definition names (s : Stats) : list string := Network_Name <$> Network_objs s.

(** What does not change while the index is rebuilt. *)
Definition rest_kept (s s' : Stats) : Prop :=
  names s' = names s ∧
  map Network_ID (Network_objs s') = map Network_ID (Network_objs s) ∧
  Networks s' = Networks s ∧ Channels s' = Channels s ∧ Users s' = Users s ∧
  Channel_objs s' = Channel_objs s ∧ User_objs s' = User_objs s ∧
  NetworkIDCount s' = NetworkIDCount s ∧ MessageIDCount s' = MessageIDCount s ∧
  ChannelIDCount s' = ChannelIDCount s ∧ UserIDCount s' = UserIDCount s.

Lemma rest_kept_trans s1 s2 s3 : rest_kept s1 s2 → rest_kept s2 s3 → rest_kept s1 s3.
Proof.
  unfold rest_kept. intros (?&?&?&?&?&?&?&?&?&?&?) (?&?&?&?&?&?&?&?&?&?&?).
  repeat split; congruence.
Qed.

Lemma buildIndexes_loop (l : list (Z * addr)) : ∀ s0,
  let s' :=
    fold_left (λ s '(_, n),
                 match Network_objs s !! n with
                 | Some n' =>
                     let s := set_networkByName (<[Network_Name n' := n]> (networkByName s)) s in
                     set_Network_objs (alter (Network_buildIndexes s) n (Network_objs s)) s
                 | None => s
                 end) l s0 in
  rest_kept s0 s' ∧
  (∀ key a, networkByName s' !! key = Some a →
            networkByName s0 !! key = Some a ∨
            (In a (map snd l) ∧ names s0 !! a = Some key)) ∧
  (∀ key, is_Some (networkByName s0 !! key) → is_Some (networkByName s' !! key)) ∧
  (∀ a nm, In a (map snd l) → names s0 !! a = Some nm →
           is_Some (networkByName s' !! nm)).
Proof.
  induction l as [|[id n] l IH]; intros s0; simpl.
  - split; [by repeat split|]. split; [by left|]. split; [done|]. by intros a nm [].
  - set (s1 := match Network_objs s0 !! n with
               | Some n' => _
               | None => s0
               end).
    assert (rest_kept s0 s1 ∧
            (∀ key a, networkByName s1 !! key = Some a →
                      networkByName s0 !! key = Some a ∨ (a = n ∧ names s0 !! a = Some key)) ∧
            (∀ key, is_Some (networkByName s0 !! key) → is_Some (networkByName s1 !! key)) ∧
            (∀ nm, names s0 !! n = Some nm → is_Some (networkByName s1 !! nm)))
      as (Hk1 & Hfrom1 & Hmono1 & Hnew1).
    { unfold s1, names. clear s1 IH. rewrite list_lookup_fmap.
      destruct (Network_objs s0 !! n) as [n'|] eqn:Hn; simpl.
      - split; [|split; [|split]].
        + unfold rest_kept, names. simpl.
          change (?f <$> ?l) with (map f l).
          rewrite !map_alter_kept by done. by repeat split.
        + intros key a Ha. destruct (decide (Network_Name n' = key)) as [<-|Hne].
          * rewrite lookup_insert_eq in Ha. injection Ha as <-.
            right. split; [done|]. by rewrite list_lookup_fmap, Hn.
          * rewrite lookup_insert_ne in Ha by done. by left.
        + intros key Hkey. destruct (decide (Network_Name n' = key)) as [<-|Hne].
          * rewrite lookup_insert_eq. eauto.
          * by rewrite lookup_insert_ne.
        + intros nm [= <-]. rewrite lookup_insert_eq. eauto.
      - split; [by repeat split|]. split; [by left|]. split; [done|]. done. }
    destruct (IH s1) as (Hk & Hfrom & Hmono & Hnew).
    pose proof (proj1 Hk1) as Hnames1.
    split; [|split; [|split]].
    + exact (rest_kept_trans _ _ _ Hk1 Hk).
    + intros key a Ha. destruct (Hfrom key a Ha) as [Ha1|[Hin Hnm]].
      * destruct (Hfrom1 key a Ha1) as [?|[-> ?]]; [by left|right; auto].
      * right. rewrite Hnames1 in Hnm. auto.
    + auto.
    + intros a nm [<-|Hin] Hnm.
      * apply Hmono. by apply Hnew1.
      * apply (Hnew a); [done|]. by rewrite Hnames1.
Qed.

Lemma buildIndexes_index (s : Stats) :
  let s' := buildIndexes s in
  (∀ key a, networkByName s' !! key = Some a →
            (∃ id, Networks s !! id = Some a) ∧
            ∃ n, Network_objs s !! a = Some n ∧ Network_Name n = key) ∧
  (∀ id a n, Networks s !! id = Some a → Network_objs s !! a = Some n →
             is_Some (networkByName s' !! Network_Name n)) ∧
  rest_kept s s'.
Proof.
  intros s'. unfold s', buildIndexes.
  destruct (buildIndexes_loop (map_range (Networks (set_networkByName ∅ s)))
              (set_networkByName ∅ s)) as (Hk & Hfrom & _ & Hnew).
  simpl in *.
  assert (∀ a, In a (map snd (map_range (Networks s))) ↔ ∃ id, Networks s !! id = Some a)
    as Hin.
  { intros a. rewrite in_map_iff. split.
    - intros ([id a'] & <- & Hin). exists id. simpl.
      apply list_elem_of_In in Hin. rewrite map_range_perm in Hin.
      by apply elem_of_map_to_list.
    - intros [id Hid]. exists (id, a). split; [done|].
      apply list_elem_of_In. rewrite map_range_perm. by apply elem_of_map_to_list. }
  assert (∀ a key, names s !! a = Some key ↔
                   ∃ n, Network_objs s !! a = Some n ∧ Network_Name n = key) as Hnm.
  { intros a key. unfold names. rewrite list_lookup_fmap.
    destruct (Network_objs s !! a) as [n|]; simpl; split.
    - intros [= <-]. eauto.
    - by intros (n' & [= <-] & <-).
    - done.
    - by intros (n' & ? & _). }
  split; [|split; [|exact Hk]].
  - intros key a Ha. destruct (Hfrom key a Ha) as [Hold|[Ha' Hkey]].
    + by rewrite lookup_empty in Hold.
    + split; [by apply Hin|by apply Hnm].
  - intros id a n Hid Hn. apply (Hnew a).
    + apply Hin. eauto.
    + apply Hnm. eauto.
Qed.

(** [buildIndexes] drops the old name index and enters every network of
    the table [Networks] under its name as it stands (not in lower
    case): each key of the new index is the name of the network it leads
    to, which is a network of the table, and every network of the table
    has its name as a key.  The tables, the stores of channels and users,
    the names and ids of the networks and the four counters stay. *)
Theorem buildIndexes_by_name (s : Stats) :
  let s' := buildIndexes s in
  (∀ key a, networkByName s' !! key = Some a →
            (∃ id, Networks s !! id = Some a) ∧
            ∃ n, Network_objs s !! a = Some n ∧ Network_Name n = key) ∧
  (∀ id a n, Networks s !! id = Some a → Network_objs s !! a = Some n →
             is_Some (networkByName s' !! Network_Name n)) ∧
  rest_kept s s'.
Proof. exact (buildIndexes_index s). Qed.

(** *** Save, then load *)

Lemma decoded_table_lookup {A} (m : gmap Z A) id a :
  decoded_table m !! id = Some a ↔ ∃ x, map_to_list m !! a = Some (id, x).
Proof.
  unfold decoded_table. rewrite <- elem_of_list_to_map.
  - rewrite elem_of_lookup_imap. split.
    + intros (i & [k x] & [= -> ->] & Hl). eauto.
    + intros [x Hl]. exists a, (id, x). done.
  - rewrite fmap_imap.
    rewrite (imap_ext _ (const fst)) by done.
    rewrite imap_const. apply NoDup_fst_map_to_list.
Qed.

Lemma decoded_objs_lookup {A} (m : gmap Z A) a :
  decoded_objs m !! a = snd <$> map_to_list m !! a.
Proof. unfold decoded_objs. apply list_lookup_fmap. Qed.

(** An entry of a decoded table leads to the object that the snapshot
    holds under that id, and every entry of the snapshot is found. *)
Lemma decoded_found {A} (m : gmap Z A) id x :
  m !! id = Some x ↔
  ∃ a, decoded_table m !! id = Some a ∧ decoded_objs m !! a = Some x.
Proof.
  rewrite <- elem_of_map_to_list, list_elem_of_lookup. split.
  - intros [a Ha]. exists a. rewrite decoded_table_lookup, decoded_objs_lookup, Ha. eauto.
  - intros (a & Ht & Ho). exists a. apply decoded_table_lookup in Ht as [x' Hx'].
    rewrite decoded_objs_lookup, Hx' in Ho. simpl in Ho. congruence.
Qed.

(** Every network of the store has the lower-case form of its name as a
    key of the index. *)
Definition store_indexed (s : Stats) : Prop :=
  ∀ a nm, names s !! a = Some nm → is_Some (networkByName s !! ToLower nm).

Lemma store_indexed_AddMessage_call c s :
  store_indexed s → store_indexed (snd (AddMessage_call c s)).
Proof.
  intros Hs. unfold AddMessage_call.
  pose proof (AddMessage_networks_kept (call_kind c) (call_network c) (call_channel c)
                (call_hostmask c) (call_date c) (call_message c) s) as (Hidx & _ & _ & _ & Hnm).
  unfold AddMessage in *. unfold store_indexed, names in *.
  change (map Network_Name ?l) with (Network_Name <$> l) in Hnm.
  rewrite Hidx, Hnm. clear Hidx Hnm.
  destruct (networkByName s !! ToLower (call_network c)) as [n|] eqn:Hl.
  - by rewrite (getNetwork_found _ _ _ Hl).
  - rewrite (getNetwork_new _ _ Hl). unfold with_new_Network. simpl.
    intros a nm Ha. rewrite fmap_app in Ha.
    apply lookup_app_Some in Ha as [Ha|[_ Ha]].
    + destruct (decide (ToLower (call_network c) = ToLower nm)) as [->|Hne].
      * rewrite lookup_insert_eq. eauto.
      * rewrite lookup_insert_ne by done. by eapply Hs.
    + apply list_lookup_singleton_Some in Ha as [_ <-].
      rewrite lookup_insert_eq. eauto.
Qed.

Lemma store_indexed_AddMessages calls : ∀ s,
  store_indexed s → store_indexed (snd (AddMessages calls s)).
Proof.
  induction calls as [|c calls IH]; intros s Hs; simpl; [done|].
  unfold bind. pose proof (store_indexed_AddMessage_call c s Hs) as Hs1.
  destruct (AddMessage_call c s) as [m s1]. simpl in *.
  specialize (IH s1 Hs1). by destruct (AddMessages calls s1).
Qed.

(** After a run of at most 2^64 calls on a new Stats, a save and a load
    (with gob copying the exported fields) give a Stats with the same
    four counters, in which [GetNetwork] finds a network under a key
    exactly when the key is the name of a network as it was first
    written, whereas before the save it finds one exactly when the key is
    the lower-case form of such a name.  So the two agree on every key
    when all names are in lower case, and only then on the names. *)
Theorem Save_load_name_index (calls : list Call) :
  Z.of_nat (length calls) ≤ uint_modulus →
  let s := snd (AddMessages calls emptyStats) in
  ∃ db loaded,
    Save None s = Ok (true, db) ∧ NewStats db = Ok (Some loaded) ∧
    (NetworkIDCount loaded = NetworkIDCount s ∧ MessageIDCount loaded = MessageIDCount s ∧
     ChannelIDCount loaded = ChannelIDCount s ∧ UserIDCount loaded = UserIDCount s) ∧
    (∀ key, is_Some (GetNetwork key loaded) ↔
            ∃ n, In n (Network_objs s) ∧ Network_Name n = key) ∧
    (∀ key, is_Some (GetNetwork key s) ↔
            ∃ n, In n (Network_objs s) ∧ ToLower (Network_Name n) = key) ∧
    ((∀ n, In n (Network_objs s) → ToLower (Network_Name n) = Network_Name n) →
     ∀ key, is_Some (GetNetwork key loaded) ↔ is_Some (GetNetwork key s)).
Proof.
  intros Hlen s.
  exists (File (Gob (gob_Encode s))), (buildIndexes (gob_Decode (gob_Encode s))).
  split; [done|]. split; [done|].
  set (d := gob_Decode (gob_Encode s)).
  destruct (buildIndexes_index d) as (Hkeys & Hall & Hkept).
  pose proof (run_network_table calls Hlen) as Htab. fold s in Htab. cbv zeta in Htab.
  assert (∀ key, is_Some (GetNetwork key (buildIndexes d)) ↔
                 ∃ n, In n (Network_objs s) ∧ Network_Name n = key) as Hloaded.
  { intros key. unfold GetNetwork. split.
    - intros [a' Ha']. destruct (Hkeys key a' Ha') as [[id Hid] (n' & Hn' & Hname)].
      assert (snap_Networks (gob_Encode s) !! id = Some n') as Hsnap
        by (apply decoded_found; eauto).
      simpl in Hsnap. apply lookup_omap_Some in Hsnap as (a & Hx & Ha).
      destruct (Network_objs s !! a) as [n|] eqn:Hn; [|done].
      injection Hx as <-. exists n. split; [|done].
      apply list_elem_of_In, list_elem_of_lookup. eauto.
    - intros (n & Hin & <-).
      apply list_elem_of_In, list_elem_of_lookup in Hin as [a Ha].
      assert (Networks s !! Network_ID n = Some a) as Hid by (apply Htab; eauto).
      assert (snap_Networks (gob_Encode s) !! Network_ID n = Some (exported n)) as Hsnap.
      { simpl. apply lookup_omap_Some. exists a. by rewrite Ha. }
      apply decoded_found in Hsnap as (a' & Ht & Ho).
      apply (Hall _ _ _ Ht Ho). }
  assert (∀ key, is_Some (GetNetwork key s) ↔
                 ∃ n, In n (Network_objs s) ∧ ToLower (Network_Name n) = key) as Hbefore.
  { intros key. unfold GetNetwork.
    destruct (index_inv_AddMessages calls [] emptyStats index_inv_emptyStats) as [Hidx _].
    pose proof (store_indexed_AddMessages calls emptyStats) as Hstore.
    fold s in Hidx, Hstore. split.
    - intros [a Ha]. destruct (Hidx key a Ha) as [_ (nm & Hnm & Hlow)].
      rewrite list_lookup_fmap in Hnm.
      destruct (Network_objs s !! a) as [n|] eqn:Hn; [|done].
      injection Hnm as <-. exists n. split; [|done].
      apply list_elem_of_In, list_elem_of_lookup. eauto.
    - intros (n & Hin & <-).
      apply list_elem_of_In, list_elem_of_lookup in Hin as [a Ha].
      apply (Hstore ltac:(by intros ? ? ?) a). unfold names.
      by rewrite list_lookup_fmap, Ha. }
  split; [|split; [exact Hloaded|split; [exact Hbefore|]]].
  - destruct Hkept as (_&_&_&_&_&_&_&Hc1&Hc2&Hc3&Hc4). fold d. by rewrite Hc1, Hc2, Hc3, Hc4.
  - intros Hlow key. rewrite Hloaded, Hbefore. split.
    + intros (n & Hin & <-). exists n. split; [done|]. by apply Hlow.
    + intros (n & Hin & <-). exists n. split; [done|]. symmetry. by apply Hlow.
Qed.

End more.
End StatsMore.

(** ** Runs of the properties above on concrete inputs *)

Module MoreExamples.
Import StatsDB StatsProps StatsExamples.

Local Existing Instance ascii_strings.
Local Existing Instance go_runtime.

Lemma record_all_any_order_witness :
  let m1 := text_message "see http://a.bc and x.org" in
  let m2 := text_message "x.org again" in
  Urls.record_all [m1; m2] Urls.NewURLs = Urls.record_all [m2; m1] Urls.NewURLs.
Proof.
  apply (UrlsMore.record_all_any_order
           [text_message "see http://a.bc and x.org"; text_message "x.org again"]
           [text_message "x.org again"; text_message "see http://a.bc and x.org"]).
  apply perm_swap.
Defined.

Lemma tokens_are_url_words_witness :
  Urls.url_word "bob@example.com" ∧
  ¬ In space (Urls.chars "bob@example.com") ∧
  "bob@example.com" ≠ EmptyString.
Proof.
  apply (UrlsMore.tokens_are_url_words [text_message "mail bob@example.com now"]).
  vm_compute. eexists. reflexivity.
Defined.

Lemma message_ids_consecutive_witness :
  let calls := [freenode_first; freenode_quit; freenode_other] in
  let r := AddMessages calls emptyStats in
  map Message_ID (fst r) = map (λ i, 1 + Z.of_nat i) (seq 0 (length calls)) ∧
  MessageIDCount (snd r) = wrap (1 + Z.of_nat (length calls)).
Proof.
  apply (@StatsMore.message_ids_consecutive ascii_strings
           [freenode_first; freenode_quit; freenode_other]).
  vm_compute. reflexivity.
Defined.

Lemma id_tables_complete_witness :
  let s := snd (AddMessages [freenode_first; freenode_quit; freenode_other] emptyStats) in
  (∀ id a, Networks s !! id = Some a ↔
           ∃ n, Network_objs s !! a = Some n ∧ Network_ID n = id) ∧
  (∀ id a, Channels s !! id = Some a ↔
           ∃ c, Channel_objs s !! a = Some c ∧ Channel_ID c = id) ∧
  (∀ id a, Users s !! id = Some a ↔
           ∃ u, User_objs s !! a = Some u ∧ User_ID u = id).
Proof.
  apply (@StatsMore.id_tables_complete ascii_strings
           [freenode_first; freenode_quit; freenode_other]).
  vm_compute. discriminate.
Defined.

Lemma Save_load_name_index_witness :
  let s := snd (AddMessages [freenode_first; freenode_quit; freenode_other] emptyStats) in
  ∃ db loaded,
    Save None s = Ok (true, db) ∧ NewStats db = Ok (Some loaded) ∧
    (NetworkIDCount loaded = NetworkIDCount s ∧ MessageIDCount loaded = MessageIDCount s ∧
     ChannelIDCount loaded = ChannelIDCount s ∧ UserIDCount loaded = UserIDCount s) ∧
    (∀ key, is_Some (GetNetwork key loaded) ↔
            ∃ n, In n (Network_objs s) ∧ Network_Name n = key) ∧
    (∀ key, is_Some (GetNetwork key s) ↔
            ∃ n, In n (Network_objs s) ∧ ToLower (Network_Name n) = key) ∧
    ((∀ n, In n (Network_objs s) → ToLower (Network_Name n) = Network_Name n) →
     ∀ key, is_Some (GetNetwork key loaded) ↔ is_Some (GetNetwork key s)).
Proof.
  apply (@StatsMore.Save_load_name_index ascii_strings go_runtime
           [freenode_first; freenode_quit; freenode_other]).
  vm_compute. discriminate.
Defined.

(** The counters on a line in capitals with two questions. *)
Example counters_on_a_line :
  let m := text_message "WHO IS  THERE? REALLY?" in
  Counters.AllCapsCount_addMessage m 0 = 1 ∧
  Counters.QuestionsCount_addMessage m 0 = 2 ∧
  Counters.ExclamationsCount_addMessage m 0 = 0 ∧
  Counters.BasicTextCounters_addMessage m (Counters.mkBasic 0 0 0) = Counters.mkBasic 4 18 1.
Proof. vm_compute. repeat split. Qed.

End MoreExamples.
